(** * tslint-prettiest: the `prettiest` rule of src/prettiestRule.ts

    A shallow embedding of the rule walker (class [PrettiestWalker]) and the
    properties of its three inspectors: constructors with property
    declarations, the catch / finally keywords of a try statement, and the
    else keyword of an if statement.

    Conventions of the embedding.
    - A JavaScript string is a list of characters ([text]).
    - JavaScript numbers that are offsets, lines and columns are naturals;
      an indent count, which the code obtains by a subtraction, is an
      integer. [Math.ceil (pos / size)] is the exact ceiling of the quotient:
      for the offsets of a source file (far below 2^53) the rounded
      floating-point quotient has the same ceiling.
    - A function that can raise returns an [outcome]; the failures a visit
      method adds with [addFailureAtNode] are the list it returns.
    - The calls [super.visit...] hand the children to the host's tree walk.
      [visitConstructorDeclaration], [visitTryStatement] and
      [visitIfStatement] below are the methods' own checks, after that call;
      [afterSuper] puts a nested visit in front of one. *)

From Stdlib Require Import String Ascii ZArith Lia Bool Arith List.
Import ListNotations.

Set Implicit Arguments.

(** ** Texts *)

Definition text := list ascii.

Definition str (s : string) : text := list_ascii_of_string s.

Definition nl : ascii := "010"%char.
Definition cr : ascii := "013"%char.
Definition tab : ascii := "009"%char.
Definition space : ascii := " "%char.
Definition comma : ascii := ","%char.

(** ** The JavaScript operations the walker relies on *)

Module Js.

Inductive JsError : Type :=
| TypeError   (* a property of [undefined] was read *)
| RangeError. (* [String.prototype.repeat] with a negative count *)

(** The result of running a piece of the walker. [OutOfModel] is returned
    only by the walker's constructor, for an option value whose numeric
    reading this embedding does not define. *)
Inductive outcome (A : Type) : Type :=
| Ok (a : A)
| Throw (e : JsError)
| OutOfModel.

Arguments Throw {A} e.
Arguments OutOfModel {A}.

Definition bind {A B : Type} (c : outcome A) (k : A -> outcome B) : outcome B :=
  match c with
  | Ok a => k a
  | Throw e => Throw e
  | OutOfModel => OutOfModel
  end.

(** [s.repeat(count)] for an integer [count] ([-0] is the integer 0) and a
    result within the engine's limit on the length of a string: a count that
    is not an integer, or a result beyond that limit, is outside the
    embedding. *)
Definition repeat (s : text) (count : Z) : outcome text :=
  if (count <? 0)%Z then Throw RangeError
  else Ok (List.concat (List.repeat s (Z.to_nat count))).

(** [s.substring(a, b)]: both ends are clamped to the length and swapped
    when out of order. *)
Definition substring (s : text) (a b : nat) : text :=
  let lo := Nat.min a b in
  let hi := Nat.max a b in
  firstn (hi - lo) (skipn lo s).

(** [s.replace(/, (?!\n)/g, replacement)], for a [replacement] without the
    character [$]: scanning from the left, each comma followed by a
    space and then by anything but a line feed (the end of the string
    included) is replaced, together with the space, by [replacement]. *)
Fixpoint replaceCommaSpace (replacement : text) (s : text) : text :=
  match s with
  | [] => []
  | c :: tl =>
      match tl with
      | c2 :: tl2 =>
          if Ascii.eqb c comma && Ascii.eqb c2 space
             && negb (match tl2 with c3 :: _ => Ascii.eqb c3 nl | [] => false end)
          then replacement ++ replaceCommaSpace replacement tl2
          else c :: replaceCommaSpace replacement tl
      | [] => [c]
      end
  end.

(** [Math.ceil (a / b)] on integers, [b] not zero. *)
Definition ceilDiv (a b : Z) : Z := (- ((- a) / b))%Z.

End Js.

Import Js.

Notation "x <- c ;; k" := (Js.bind c (fun x => k))
  (at level 61, c at next level, right associativity).

(** ** The syntax tree and the position service (TypeScript compiler API) *)

Module Ts.

(** The node kinds the rule tests for, and the others. *)
Inductive SyntaxKind : Type :=
| SyntaxList
| Parameter_
| PrivateKeyword
| ProtectedKeyword
| PublicKeyword
| FinallyKeyword
| ElseKeyword
| Block
| CatchClause
| OtherKind (name : string).

Definition kind_eqb (a b : SyntaxKind) : bool :=
  match a, b with
  | SyntaxList, SyntaxList
  | Parameter_, Parameter_
  | PrivateKeyword, PrivateKeyword
  | ProtectedKeyword, ProtectedKeyword
  | PublicKeyword, PublicKeyword
  | FinallyKeyword, FinallyKeyword
  | ElseKeyword, ElseKeyword
  | Block, Block
  | CatchClause, CatchClause => true
  | OtherKind x, OtherKind y => String.eqb x y
  | _, _ => false
  end.

(** A node: [uid] is the identity of the object (what [===] compares),
    [pos] the full start (leading trivia included), [start] what
    [getStart()] returns, [end_] the end offset. *)
#[warnings="-register-all"]
Inductive Node : Type :=
  mkNode { uid : nat;
           kind : SyntaxKind;
           pos : nat;
           start : nat;
           end_ : nat;
           children : list Node }.

Record SourceFile : Type := mkSourceFile { fileText : text }.

Definition getChildren (n : Node) : list Node := children n.
Definition getFullStart (n : Node) : nat := pos n.
Definition getStart (n : Node) : nat := start n.
Definition getEnd (n : Node) : nat := end_ n.
(** [getWidth()] is [getEnd() - getStart()]; no node ends before it starts. *)
Definition getWidth (n : Node) : nat := getEnd n - getStart n.
Definition getText (sf : SourceFile) (n : Node) : text :=
  Js.substring (fileText sf) (getStart n) (getEnd n).

(** Modelled from the spec: the "line-break index" of the source file, which
    the parser keeps. The offsets at which a line starts, after the first
    line: the offset after each line feed, each carriage return + line feed
    and each lone carriage return. The parser also breaks lines at the
    separators U+2028 and U+2029, which a text of 8-bit characters does not
    hold. *)
Fixpoint lineStartsFrom (s : text) (offset : nat) : list nat :=
  match s with
  | [] => []
  | c :: tl =>
      if Ascii.eqb c cr then
        match tl with
        | c2 :: tl2 =>
            if Ascii.eqb c2 nl
            then (offset + 2) :: lineStartsFrom tl2 (offset + 2)
            else (offset + 1) :: lineStartsFrom tl (offset + 1)
        | [] => [offset + 1]
        end
      else if Ascii.eqb c nl
           then (offset + 1) :: lineStartsFrom tl (offset + 1)
           else lineStartsFrom tl (offset + 1)
  end.

Definition computeLineStarts (s : text) : list nat := 0 :: lineStartsFrom s 0.

Record LineAndCharacter : Type := mkLineAndCharacter { line : nat; character : nat }.

(** Modelled from the spec: the position service of the parser, "maps
    the offset to a zero-based line/column pair, using the source file's
    own line-break index". The line is the index of the last line start at
    or before the position, the character the distance from it. *)
Definition getLineAndCharacterOfPosition (sf : SourceFile) (position : nat)
  : LineAndCharacter :=
  let before := filter (fun s => s <=? position) (computeLineStarts (fileText sf)) in
  {| line := pred (length before);
     character := position - last before 0 |}.

End Ts.

Import Ts.

(** ** Rule failures and replacements (tslint) *)

Module Lint.

Record Replacement : Type :=
  mkReplacement { replStart : nat; replLength : nat; replText : text }.

Record RuleFailure : Type :=
  mkRuleFailure { failStart : nat;
                  failWidth : nat;
                  failMessage : text;
                  failFix : Replacement }.

(** A rule argument of the configuration: a string or a number. *)
Inductive RuleArgument : Type :=
| ArgString (s : string)
| ArgNumber (n : Z).

Definition argIsString (name : string) (a : RuleArgument) : bool :=
  match a with
  | ArgString s => String.eqb s name
  | ArgNumber _ => false
  end.

(** [hasOption(name)]: [ruleArguments.indexOf(name) !== -1]. *)
Definition hasOption (ruleArguments : list RuleArgument) (name : string) : bool :=
  existsb (argIsString name) ruleArguments.

(** JavaScript truthiness of an entry that may be absent ([undefined]). *)
Definition truthy (a : option RuleArgument) : bool :=
  match a with
  | None => false
  | Some (ArgString s) => negb (String.eqb s "")
  | Some (ArgNumber n) => negb (n =? 0)%Z
  end.

(** [addFailureAtNode(node, message, fix)]. *)
Definition addFailureAtNode (n : Node) (message : text) (fix_ : Replacement)
  : RuleFailure :=
  {| failStart := getStart n;
     failWidth := getWidth n;
     failMessage := message;
     failFix := fix_ |}.

(** Applying a fix: "in the original text, delete removeWidth characters
    starting at startOffset, then insert insertText at that point". *)
Definition applyFix (source : text) (fix_ : Replacement) : text :=
  firstn (replStart fix_) source ++ replText fix_
    ++ skipn (replStart fix_ + replLength fix_) source.

End Lint.

Import Lint.

(** ** The rule *)

Definition OPTION_USE_TABS : string := "tabs".

Module Rule.
Definition ControlStatementsOwnLineMessage : text :=
  str "Control statements (else/catch/finally) should be on their own line.".
Definition MultilineConstructorMessage : text :=
  str "Constructors with property declarations should be multi-line.".
End Rule.

(** The fields of [PrettiestWalker]. *)
Record Walker : Type :=
  mkWalker { indent : text; size : Z; tabs : bool }.

(** The constructor of [PrettiestWalker]:
    [size = (getOptions()[2] && getOptions()[2]) || 4] and
    [indent = tabs ? '\t' : ' '.repeat(size)]. A truthy string as third
    argument would make [size] a string; that is outside the model. *)
Definition newWalker (ruleArguments : list RuleArgument) : outcome Walker :=
  let tabs := hasOption ruleArguments OPTION_USE_TABS in
  let third := nth_error ruleArguments 2 in
  match (if truthy third then third else Some (ArgNumber 4)) with
  | Some (ArgNumber size) =>
      indent <- (if tabs then Ok [tab] else Js.repeat [space] size) ;;
      Ok {| indent := indent; size := size; tabs := tabs |}
  | _ => OutOfModel
  end.

Section PrettiestWalker.

Variable w : Walker.
Variable sf : SourceFile.

Definition getStartPosition (node : Node) : LineAndCharacter :=
  getLineAndCharacterOfPosition sf (getStart node).

Definition getEndPosition (node : Node) : LineAndCharacter :=
  getLineAndCharacterOfPosition sf (getEnd node).

(** [areOnSameLine(node, nextNode)]; [node] may be [undefined], and reading
    its source file then raises. *)
Definition areOnSameLine (node : option Node) (nextNode : Node) : outcome bool :=
  match node with
  | None => Throw TypeError
  | Some node =>
      Ok (line (getEndPosition node) =? line (getStartPosition nextNode))
  end.

Definition getIndentCount (node : Node) (offset : Z) : Z :=
  let pos := (Z.of_nat (character (getStartPosition node)) - offset)%Z in
  if tabs w then pos else Js.ceilDiv pos (size w).

(** [children.indexOf(node)], on object identity; -1 when absent. *)
Fixpoint indexOfFrom (children : list Node) (node : Node) (i : Z) : Z :=
  match children with
  | [] => (-1)%Z
  | c :: rest =>
      if uid c =? uid node then i else indexOfFrom rest node (i + 1)%Z
  end.

Definition indexOf (children : list Node) (node : Node) : Z :=
  indexOfFrom children node 0%Z.

(** [children[i]]: [undefined] outside the array. *)
Definition at_ (children : list Node) (i : Z) : option Node :=
  if (i <? 0)%Z then None else nth_error children (Z.to_nat i).

Definition isBlockOrCatchClause (n : Node) : bool :=
  kind_eqb (kind n) Block || kind_eqb (kind n) CatchClause.

(** The loop of [getPreviousNode], with [n = position + 1]: the position it
    stops at. Reading [.kind] of an absent child raises. *)
Fixpoint previousPosition (children : list Node) (n : nat) : outcome Z :=
  match n with
  | O => Ok (-1)%Z
  | S p =>
      match nth_error children p with
      | None => Throw TypeError
      | Some c =>
          if isBlockOrCatchClause c then Ok (Z.of_nat p)
          else previousPosition children p
      end
  end.

(** [getPreviousNode(children, node)]: what [children[position]] is when the
    loop ends. When [node] is not among the children the loop does not run
    and [position] is -2; [children[-2]], like [children[-1]], is
    [undefined]. *)
Definition getPreviousNode (children : list Node) (node : Node)
  : outcome (option Node) :=
  let position := (indexOf children node - 1)%Z in
  position <- previousPosition children (Z.to_nat (position + 1)) ;;
  Ok (at_ children position).

Definition isKind (k : SyntaxKind) (c : Node) : bool := kind_eqb (kind c) k.

Definition isVisibilityKeyword (c : Node) : bool :=
  kind_eqb (kind c) PrivateKeyword
  || kind_eqb (kind c) ProtectedKeyword
  || kind_eqb (kind c) PublicKeyword.

(** The body of the loop over the parameters that sets [hasProperties]. *)
Definition declaresProperty (p : Node) : bool :=
  match hd_error (filter (isKind SyntaxList) (getChildren p)) with
  | Some modifiers =>
      match hd_error (filter isVisibilityKeyword (getChildren modifiers)) with
      | Some _ => true
      | None => false
      end
  | None => false
  end.

(** The loop over the parameters: the final value of [requiresFix]. *)
Fixpoint scanParameters (parameters : list Node) (hasProperties : bool)
         (previousLine : nat) : bool :=
  match parameters with
  | [] => false
  | p :: rest =>
      let hasProperties := hasProperties || declaresProperty p in
      let line := line (getStartPosition p) in
      if hasProperties && (line =? previousLine) then true
      else scanParameters rest hasProperties line
  end.

(** The own check of [visitConstructorDeclaration] (lines 32-79): what the
    method does once [super.visitConstructorDeclaration(node)] has returned.
    The failures and errors of the nested visit are not in it; see
    [afterSuper]. *)
Definition visitConstructorDeclaration (node : Node) : outcome (list RuleFailure) :=
  match hd_error (filter (isKind SyntaxList) (getChildren node)) with
  | None => Ok []
  | Some signature =>
      let previousLine := line (getStartPosition node) in
      let parameters := filter (isKind Parameter_) (getChildren signature) in
      if scanParameters parameters false previousLine then
        let count := getIndentCount node 0 in
        deeper <- Js.repeat (indent w) (count + 1) ;;
        level <- Js.repeat (indent w) count ;;
        let text := [nl] ++ deeper ++ getText sf signature ++ [nl] ++ level in
        deeper <- Js.repeat (indent w) (count + 1) ;;
        let text := Js.replaceCommaSpace ([comma; nl] ++ deeper) text in
        let fix_ := mkReplacement (getStart signature) (getWidth signature) text in
        Ok [addFailureAtNode signature
              (Rule.MultilineConstructorMessage ++ [nl] ++ text) fix_]
      else Ok []
  end.

(** A try statement: its node and its [catchClause] property. *)
Record TryStatement : Type :=
  mkTryStatement { tryNode : Node; catchClause : option Node }.

Definition checkTryStatement (tryStatement : TryStatement) (node : Node)
  : outcome (list RuleFailure) :=
  previousNode <- getPreviousNode (getChildren (tryNode tryStatement)) node ;;
  requiresFix <- areOnSameLine previousNode node ;;
  if (requiresFix : bool) then
    let count := getIndentCount node 2 in
    level <- Js.repeat (indent w) count ;;
    let fix_ := mkReplacement (getFullStart node) 1 ([nl] ++ level) in
    Ok [addFailureAtNode node Rule.ControlStatementsOwnLineMessage fix_]
  else Ok [].

(** The own check of [visitTryStatement] (lines 87-102), once
    [super.visitTryStatement(tryStatement)] has returned. *)
Definition visitTryStatement (tryStatement : TryStatement)
  : outcome (list RuleFailure) :=
  fromCatch <- match catchClause tryStatement with
               | Some c => checkTryStatement tryStatement c
               | None => Ok []
               end ;;
  fromFinally <- match hd_error (filter (isKind FinallyKeyword)
                                   (getChildren (tryNode tryStatement))) with
                 | Some finallyBlock => checkTryStatement tryStatement finallyBlock
                 | None => Ok []
                 end ;;
  Ok (fromCatch ++ fromFinally).

(** The own check of [visitIfStatement] (lines 121-143), once
    [super.visitIfStatement(ifStatement)] has returned. *)
Definition visitIfStatement (ifStatement : Node) : outcome (list RuleFailure) :=
  match hd_error (filter (isKind ElseKeyword) (getChildren ifStatement)) with
  | None => Ok []
  | Some elseKeyword =>
      let previousNode :=
        at_ (getChildren ifStatement)
            (indexOf (getChildren ifStatement) elseKeyword - 1)%Z in
      requiresFix <- areOnSameLine previousNode elseKeyword ;;
      if negb (existsb (isKind Block) (getChildren ifStatement)) then Ok []
      else if (requiresFix : bool) then
        let count := getIndentCount elseKeyword 2 in
        level <- Js.repeat (indent w) count ;;
        let fix_ := mkReplacement (getFullStart elseKeyword) 1 ([nl] ++ level) in
        Ok [addFailureAtNode elseKeyword Rule.ControlStatementsOwnLineMessage fix_]
      else Ok []
  end.

End PrettiestWalker.

Arguments getLineAndCharacterOfPosition : simpl never.
Arguments getStartPosition : simpl never.
Arguments getEndPosition : simpl never.
Arguments getText : simpl never.

(** A visit method in full: [super.visit...(node)], then the method's own
    check. The nested visit, which the host's tree walk runs over the
    children of the node, adds its failures first or raises; the walk is not
    part of this repository and its outcome is a parameter. *)
Definition afterSuper (nested own : outcome (list RuleFailure))
  : outcome (list RuleFailure) :=
  fromNested <- nested ;;
  fromOwn <- own ;;
  Ok (fromNested ++ fromOwn).

(** The failures a visit has added when it ends, normally or not. *)
Definition emitted (r : outcome (list RuleFailure)) : list RuleFailure :=
  match r with
  | Ok fs => fs
  | _ => []
  end.

(** [indent.repeat(k)] when it does not raise. *)
Definition indentation (w : Walker) (k : Z) : text :=
  List.concat (List.repeat (indent w) (Z.to_nat k)).

(** ** Definitions that follow the words of the specification *)

(** The spec's account of the constructor fix: "insert a newline +
    count+1 indent units after every comma that is not already followed by
    a newline". *)
Fixpoint specInsertAfterCommas (inserted : text) (s : text) : text :=
  match s with
  | [] => []
  | c :: tl =>
      if Ascii.eqb c comma
         && negb (match tl with c2 :: _ => Ascii.eqb c2 nl | [] => false end)
      then c :: inserted ++ specInsertAfterCommas inserted tl
      else c :: specInsertAfterCommas inserted tl
  end.

(** The replacement text of the constructor fix in the spec's words:
    "newline, count+1 indent units, the full original text of the
    parameter-list, newline, count indent units", with the insertion after
    commas made in it. *)
Definition specMultilineText (w : Walker) (count : Z) (listText : text) : text :=
  specInsertAfterCommas ([nl] ++ indentation w (count + 1))
    ([nl] ++ indentation w (count + 1) ++ listText ++ [nl] ++ indentation w count).

(** [ps.join(sep)]. *)
Fixpoint join (sep : text) (ps : list text) : text :=
  match ps with
  | [] => []
  | [p] => p
  | p :: rest => p ++ sep ++ join sep rest
  end.

(** The offsets at which the texts [ps], written one after the other with
    [gap] characters between two of them, start when the first starts at
    [base]. *)
Fixpoint landing (base gap : nat) (ps : list text) : list nat :=
  match ps with
  | [] => []
  | p :: rest => base :: landing (base + length p + gap) gap rest
  end.

(** A parameter text as a token run can be: not empty, not starting with a
    line feed, and here without a comma of its own. *)
Definition plainParameter (p : text) : Prop :=
  p <> [] /\ hd space p <> nl /\ ~ In comma p.

(** ** Notions the statements use *)

Definition lineOf (sf : SourceFile) (position : nat) : nat :=
  line (getLineAndCharacterOfPosition sf position).

Definition startLine (sf : SourceFile) (n : Node) : nat :=
  line (getStartPosition sf n).

(** No two neighbours of the list are equal. *)
Fixpoint neighboursDiffer (l : list nat) : Prop :=
  match l with
  | a :: (b :: _) as rest => a <> b /\ neighboursDiffer rest
  | _ => True
  end.

(** A text does not start with the character [c]. *)
Definition notStartingWith (c : ascii) (s : text) : Prop :=
  match s with
  | [] => True
  | c' :: _ => c' <> c
  end.

(** The source file once a fix is applied to its text. *)
Definition fixedSource (sf : SourceFile) (fix_ : Replacement) : SourceFile :=
  mkSourceFile (applyFix (fileText sf) fix_).

(** ** What the inspectors report *)

(** The failure reported for a catch, finally or else keyword. *)
Definition controlFailure (w : Walker) (sf : SourceFile) (node : Node) : RuleFailure :=
  addFailureAtNode node Rule.ControlStatementsOwnLineMessage
    (mkReplacement (getFullStart node) 1
       ([nl] ++ indentation w (getIndentCount w sf node 2))).

(** What both keyword inspectors do once the previous node is known. *)
Definition sameLineCheck (w : Walker) (sf : SourceFile) (previousNode node : Node)
  : outcome (list RuleFailure) :=
  if lineOf sf (getEnd previousNode) =? lineOf sf (getStart node) then
    if (getIndentCount w sf node 2 <? 0)%Z then Throw RangeError
    else Ok [controlFailure w sf node]
  else Ok [].

(** The text a constructor's parameter list is replaced with. *)
Definition multilineText (w : Walker) (count : Z) (listText : text) : text :=
  Js.replaceCommaSpace ([comma; nl] ++ indentation w (count + 1))
    ([nl] ++ indentation w (count + 1) ++ listText ++ [nl] ++ indentation w count).

(** The failure reported for a constructor with the parameter list
    [signature]. *)
Definition constructorFailure (w : Walker) (sf : SourceFile)
           (node signature : Node) : RuleFailure :=
  let text := multilineText w (getIndentCount w sf node 0) (getText sf signature) in
  addFailureAtNode signature (Rule.MultilineConstructorMessage ++ [nl] ++ text)
    (mkReplacement (getStart signature) (getWidth signature) text).

(** The parameter list of a constructor and its parameters, as the
    inspector finds them. *)
Definition signatureOf (node : Node) : option Node :=
  hd_error (filter (isKind SyntaxList) (getChildren node)).

Definition parametersOf (signature : Node) : list Node :=
  filter (isKind Parameter_) (getChildren signature).

(** ** Source files and trees used as examples

    Each tree gives the nodes of the text beside it with their offsets; the
    children of nodes the rule does not look into are left out. *)

(** The walker for the rule arguments [[]]: four spaces. *)
Definition spacesWalker : Walker :=
  {| indent := str "    "; size := 4; tabs := false |}.

(** The walker for the rule arguments [["tabs"]]. *)
Definition tabsWalker : Walker :=
  {| indent := [tab]; size := 4; tabs := true |}.

(** [try {], [}catch (e) {}]: the catch keyword right after the brace, in column 1. *)
Definition tryTight_source : SourceFile :=
  mkSourceFile (str "try {" ++ [nl] ++ str "}catch (e) {}").

Definition tryTight_block : Node :=
  mkNode 2 Block 3 4 7 [].

Definition tryTight_catch : Node :=
  mkNode 3 CatchClause 7 7 19 [].

Definition tryTight_statement : Node :=
  mkNode 0 (OtherKind "TryStatement") 0 0 19
    [mkNode 1 (OtherKind "TryKeyword") 0 0 3 [];
     tryTight_block;
     tryTight_catch].

(** [if (x) {], [}else {}]: the else keyword right after the brace, in column 1. *)
Definition ifTight_source : SourceFile :=
  mkSourceFile (str "if (x) {" ++ [nl] ++ str "}else {}").

Definition ifTight_consequent : Node :=
  mkNode 5 Block 6 7 10 [].

Definition ifTight_else : Node :=
  mkNode 6 ElseKeyword 10 10 14 [].

Definition ifTight_statement : Node :=
  mkNode 0 (OtherKind "IfStatement") 0 0 17
    [mkNode 1 (OtherKind "IfKeyword") 0 0 2 [];
     mkNode 2 (OtherKind "OpenParenToken") 2 3 4 [];
     mkNode 3 (OtherKind "Identifier") 4 4 5 [];
     mkNode 4 (OtherKind "CloseParenToken") 5 5 6 [];
     ifTight_consequent;
     ifTight_else;
     mkNode 7 Block 14 15 17 []].

(** A one-line constructor whose parameters are separated by a comma alone. *)
Definition ctorTight_source : SourceFile :=
  mkSourceFile (str "class A {" ++ [nl] ++ str "constructor(a,private b) {}" ++ [nl] ++ str "}").

Definition ctorTight_a : Node :=
  mkNode 4 Parameter_ 22 22 23
    [mkNode 5 (OtherKind "Identifier") 22 22 23 []].

Definition ctorTight_b : Node :=
  mkNode 7 Parameter_ 24 24 33
    [mkNode 8 SyntaxList 24 24 31
        [mkNode 9 PrivateKeyword 24 24 31 []];
     mkNode 10 (OtherKind "Identifier") 31 32 33 []].

Definition ctorTight_signature : Node :=
  mkNode 3 SyntaxList 22 22 33
    [ctorTight_a;
     mkNode 6 (OtherKind "CommaToken") 23 23 24 [];
     ctorTight_b].

Definition ctorTight_ctor : Node :=
  mkNode 0 (OtherKind "Constructor") 9 10 37
    [mkNode 1 (OtherKind "ConstructorKeyword") 10 10 21 [];
     mkNode 2 (OtherKind "OpenParenToken") 21 21 22 [];
     ctorTight_signature;
     mkNode 11 (OtherKind "CloseParenToken") 33 33 34 [];
     mkNode 12 Block 34 35 37 []].

(** The same constructor once its fix is applied. *)
Definition ctorTightFixed_source : SourceFile :=
  mkSourceFile (str "class A {" ++ [nl] ++ str "constructor(" ++ [nl] ++ str "    a,private b" ++ [nl] ++ str ") {}" ++ [nl] ++ str "}").

Definition ctorTightFixed_a : Node :=
  mkNode 4 Parameter_ 27 27 28
    [mkNode 5 (OtherKind "Identifier") 27 27 28 []].

Definition ctorTightFixed_b : Node :=
  mkNode 7 Parameter_ 29 29 38
    [mkNode 8 SyntaxList 29 29 36
        [mkNode 9 PrivateKeyword 29 29 36 []];
     mkNode 10 (OtherKind "Identifier") 36 37 38 []].

Definition ctorTightFixed_signature : Node :=
  mkNode 3 SyntaxList 22 27 38
    [ctorTightFixed_a;
     mkNode 6 (OtherKind "CommaToken") 28 28 29 [];
     ctorTightFixed_b].

Definition ctorTightFixed_ctor : Node :=
  mkNode 0 (OtherKind "Constructor") 9 10 43
    [mkNode 1 (OtherKind "ConstructorKeyword") 10 10 21 [];
     mkNode 2 (OtherKind "OpenParenToken") 21 21 22 [];
     ctorTightFixed_signature;
     mkNode 11 (OtherKind "CloseParenToken") 38 39 40 [];
     mkNode 12 Block 40 41 43 []].

(** The constructor of the specification, one level deep in its class. *)
Definition ctorSpaced_source : SourceFile :=
  mkSourceFile (str "class A {" ++ [nl] ++ str "    constructor(a: number, private b: string) {}" ++ [nl] ++ str "}").

Definition ctorSpaced_a : Node :=
  mkNode 4 Parameter_ 26 26 35
    [mkNode 5 (OtherKind "Identifier") 26 26 27 [];
     mkNode 6 (OtherKind "ColonToken") 27 27 28 [];
     mkNode 7 (OtherKind "NumberKeyword") 28 29 35 []].

Definition ctorSpaced_b : Node :=
  mkNode 9 Parameter_ 36 37 54
    [mkNode 10 SyntaxList 37 37 44
        [mkNode 11 PrivateKeyword 37 37 44 []];
     mkNode 12 (OtherKind "Identifier") 44 45 46 [];
     mkNode 13 (OtherKind "ColonToken") 46 46 47 [];
     mkNode 14 (OtherKind "StringKeyword") 47 48 54 []].

Definition ctorSpaced_signature : Node :=
  mkNode 3 SyntaxList 26 26 54
    [ctorSpaced_a;
     mkNode 8 (OtherKind "CommaToken") 35 35 36 [];
     ctorSpaced_b].

Definition ctorSpaced_ctor : Node :=
  mkNode 0 (OtherKind "Constructor") 9 14 58
    [mkNode 1 (OtherKind "ConstructorKeyword") 14 14 25 [];
     mkNode 2 (OtherKind "OpenParenToken") 25 25 26 [];
     ctorSpaced_signature;
     mkNode 15 (OtherKind "CloseParenToken") 54 54 55 [];
     mkNode 16 Block 55 56 58 []].

(** The same constructor with every parameter on a line of its own. *)
Definition ctorLines_source : SourceFile :=
  mkSourceFile (str "class A {" ++ [nl] ++ str "    constructor(" ++ [nl] ++ str "        a: number," ++ [nl] ++ str "        private b: string" ++ [nl] ++ str "    ) {}" ++ [nl] ++ str "}").

Definition ctorLines_a : Node :=
  mkNode 4 Parameter_ 35 35 44
    [mkNode 5 (OtherKind "Identifier") 35 35 36 [];
     mkNode 6 (OtherKind "ColonToken") 36 36 37 [];
     mkNode 7 (OtherKind "NumberKeyword") 37 38 44 []].

Definition ctorLines_b : Node :=
  mkNode 9 Parameter_ 45 54 71
    [mkNode 10 SyntaxList 54 54 61
        [mkNode 11 PrivateKeyword 54 54 61 []];
     mkNode 12 (OtherKind "Identifier") 61 62 63 [];
     mkNode 13 (OtherKind "ColonToken") 63 63 64 [];
     mkNode 14 (OtherKind "StringKeyword") 64 65 71 []].

Definition ctorLines_signature : Node :=
  mkNode 3 SyntaxList 26 35 71
    [ctorLines_a;
     mkNode 8 (OtherKind "CommaToken") 44 44 45 [];
     ctorLines_b].

Definition ctorLines_ctor : Node :=
  mkNode 0 (OtherKind "Constructor") 9 14 80
    [mkNode 1 (OtherKind "ConstructorKeyword") 14 14 25 [];
     mkNode 2 (OtherKind "OpenParenToken") 25 25 26 [];
     ctorLines_signature;
     mkNode 15 (OtherKind "CloseParenToken") 71 76 77 [];
     mkNode 16 Block 77 78 80 []].

(** A one-line constructor with a single parameter, a property. *)
Definition ctorSingle_source : SourceFile :=
  mkSourceFile (str "class A {" ++ [nl] ++ str "    constructor(private a: string) {}" ++ [nl] ++ str "}").

Definition ctorSingle_a : Node :=
  mkNode 4 Parameter_ 26 26 43
    [mkNode 5 SyntaxList 26 26 33
        [mkNode 6 PrivateKeyword 26 26 33 []];
     mkNode 7 (OtherKind "Identifier") 33 34 35 [];
     mkNode 8 (OtherKind "ColonToken") 35 35 36 [];
     mkNode 9 (OtherKind "StringKeyword") 36 37 43 []].

Definition ctorSingle_signature : Node :=
  mkNode 3 SyntaxList 26 26 43
    [ctorSingle_a].

Definition ctorSingle_ctor : Node :=
  mkNode 0 (OtherKind "Constructor") 9 14 47
    [mkNode 1 (OtherKind "ConstructorKeyword") 14 14 25 [];
     mkNode 2 (OtherKind "OpenParenToken") 25 25 26 [];
     ctorSingle_signature;
     mkNode 10 (OtherKind "CloseParenToken") 43 43 44 [];
     mkNode 11 Block 44 45 47 []].

(** A single property parameter whose type has a comma and a space of its own. *)
Definition ctorGeneric_source : SourceFile :=
  mkSourceFile (str "class A {" ++ [nl] ++ str "    constructor(private m: Map<string, number>) {}" ++ [nl] ++ str "}").

Definition ctorGeneric_m : Node :=
  mkNode 4 Parameter_ 26 26 56
    [mkNode 5 SyntaxList 26 26 33
        [mkNode 6 PrivateKeyword 26 26 33 []];
     mkNode 7 (OtherKind "Identifier") 33 34 35 [];
     mkNode 8 (OtherKind "ColonToken") 35 35 36 [];
     mkNode 9 (OtherKind "TypeReference") 36 37 56 []].

Definition ctorGeneric_signature : Node :=
  mkNode 3 SyntaxList 26 26 56
    [ctorGeneric_m].

Definition ctorGeneric_ctor : Node :=
  mkNode 0 (OtherKind "Constructor") 9 14 60
    [mkNode 1 (OtherKind "ConstructorKeyword") 14 14 25 [];
     mkNode 2 (OtherKind "OpenParenToken") 25 25 26 [];
     ctorGeneric_signature;
     mkNode 10 (OtherKind "CloseParenToken") 56 56 57 [];
     mkNode 11 Block 57 58 60 []].


(** A try statement without a block before its catch clause: a tree built by
    hand, which no parser returns. *)
Definition tryBare_source : SourceFile :=
  mkSourceFile (str "try catch (e) {}").

Definition tryBare_catch : Node :=
  mkNode 2 CatchClause 3 4 16 [].

Definition tryBare_statement : Node :=
  mkNode 0 (OtherKind "TryStatement") 0 0 16
    [mkNode 1 (OtherKind "TryKeyword") 0 0 3 [];
     tryBare_catch].

(** An unbraced consequent and a braced else branch. *)
Definition ifElseBraced_source : SourceFile :=
  mkSourceFile (str "if (x) a(); else { b(); }").

Definition ifElseBraced_consequent : Node :=
  mkNode 5 (OtherKind "ExpressionStatement") 6 7 11 [].

Definition ifElseBraced_else : Node :=
  mkNode 6 ElseKeyword 11 12 16 [].

Definition ifElseBraced_statement : Node :=
  mkNode 0 (OtherKind "IfStatement") 0 0 25
    [mkNode 1 (OtherKind "IfKeyword") 0 0 2 [];
     mkNode 2 (OtherKind "OpenParenToken") 2 3 4 [];
     mkNode 3 (OtherKind "Identifier") 4 4 5 [];
     mkNode 4 (OtherKind "CloseParenToken") 5 5 6 [];
     ifElseBraced_consequent;
     ifElseBraced_else;
     mkNode 7 Block 16 17 25 []].

(** No braces at all. *)
Definition ifElseBare_source : SourceFile :=
  mkSourceFile (str "if (x) a(); else b();").

Definition ifElseBare_consequent : Node :=
  mkNode 5 (OtherKind "ExpressionStatement") 6 7 11 [].

Definition ifElseBare_else : Node :=
  mkNode 6 ElseKeyword 11 12 16 [].

Definition ifElseBare_statement : Node :=
  mkNode 0 (OtherKind "IfStatement") 0 0 21
    [mkNode 1 (OtherKind "IfKeyword") 0 0 2 [];
     mkNode 2 (OtherKind "OpenParenToken") 2 3 4 [];
     mkNode 3 (OtherKind "Identifier") 4 4 5 [];
     mkNode 4 (OtherKind "CloseParenToken") 5 5 6 [];
     ifElseBare_consequent;
     ifElseBare_else;
     mkNode 7 (OtherKind "ExpressionStatement") 16 17 21 []].

(** A try statement with the catch keyword behind the closing brace. *)
Definition tryLines_source : SourceFile :=
  mkSourceFile (str "try {" ++ [nl] ++ str "    foo();" ++ [nl] ++ str "} catch (e) {" ++ [nl] ++ str "    bar();" ++ [nl] ++ str "}").

Definition tryLines_block : Node :=
  mkNode 2 Block 3 4 18 [].

Definition tryLines_catch : Node :=
  mkNode 3 CatchClause 18 19 43 [].

Definition tryLines_statement : Node :=
  mkNode 0 (OtherKind "TryStatement") 0 0 43
    [mkNode 1 (OtherKind "TryKeyword") 0 0 3 [];
     tryLines_block;
     tryLines_catch].

(** The same statement once its fix is applied. *)
Definition tryLinesFixed_source : SourceFile :=
  mkSourceFile (str "try {" ++ [nl] ++ str "    foo();" ++ [nl] ++ str "}" ++ [nl] ++ str "catch (e) {" ++ [nl] ++ str "    bar();" ++ [nl] ++ str "}").

Definition tryLinesFixed_block : Node :=
  mkNode 2 Block 3 4 18 [].

Definition tryLinesFixed_catch : Node :=
  mkNode 3 CatchClause 18 19 43 [].

Definition tryLinesFixed_statement : Node :=
  mkNode 0 (OtherKind "TryStatement") 0 0 43
    [mkNode 1 (OtherKind "TryKeyword") 0 0 3 [];
     tryLinesFixed_block;
     tryLinesFixed_catch].


(** A try statement with a catch clause and a finally block, on one line. *)
Definition tryFull_source : SourceFile :=
  mkSourceFile (str "try { a(); } catch (e) { b(); } finally { c(); }").

Definition tryFull_block : Node :=
  mkNode 2 Block 3 4 12 [].

Definition tryFull_catch : Node :=
  mkNode 3 CatchClause 12 13 31 [].

Definition tryFull_finally : Node :=
  mkNode 4 FinallyKeyword 31 32 39 [].

Definition tryFull_statement : Node :=
  mkNode 0 (OtherKind "TryStatement") 0 0 48
    [mkNode 1 (OtherKind "TryKeyword") 0 0 3 [];
     tryFull_block;
     tryFull_catch;
     tryFull_finally;
     mkNode 5 Block 39 40 48 []].

(** A constructor with a modifier of its own: its first list child is the modifier list. *)
Definition ctorPrivate_source : SourceFile :=
  mkSourceFile (str "class A {" ++ [nl] ++ str "    private constructor(a: number, private b: string) {}" ++ [nl] ++ str "}").

Definition ctorPrivate_modifiers : Node :=
  mkNode 1 SyntaxList 14 14 21
    [mkNode 2 PrivateKeyword 14 14 21 []].

Definition ctorPrivate_a : Node :=
  mkNode 6 Parameter_ 34 34 43
    [mkNode 7 (OtherKind "Identifier") 34 34 35 [];
     mkNode 8 (OtherKind "ColonToken") 35 35 36 [];
     mkNode 9 (OtherKind "NumberKeyword") 36 37 43 []].

Definition ctorPrivate_b : Node :=
  mkNode 11 Parameter_ 44 45 62
    [mkNode 12 SyntaxList 45 45 52
        [mkNode 13 PrivateKeyword 45 45 52 []];
     mkNode 14 (OtherKind "Identifier") 52 53 54 [];
     mkNode 15 (OtherKind "ColonToken") 54 54 55 [];
     mkNode 16 (OtherKind "StringKeyword") 55 56 62 []].

Definition ctorPrivate_signature : Node :=
  mkNode 5 SyntaxList 34 34 62
    [ctorPrivate_a;
     mkNode 10 (OtherKind "CommaToken") 43 43 44 [];
     ctorPrivate_b].

Definition ctorPrivate_ctor : Node :=
  mkNode 0 (OtherKind "Constructor") 9 14 66
    [ctorPrivate_modifiers;
     mkNode 3 (OtherKind "ConstructorKeyword") 21 22 33 [];
     mkNode 4 (OtherKind "OpenParenToken") 33 33 34 [];
     ctorPrivate_signature;
     mkNode 17 (OtherKind "CloseParenToken") 62 62 63 [];
     mkNode 18 Block 63 64 66 []].

(** A one-line constructor without property declarations. *)
Definition ctorPlain_source : SourceFile :=
  mkSourceFile (str "class A {" ++ [nl] ++ str "    constructor(a: number, b: string) {}" ++ [nl] ++ str "}").

Definition ctorPlain_a : Node :=
  mkNode 4 Parameter_ 26 26 35
    [mkNode 5 (OtherKind "Identifier") 26 26 27 [];
     mkNode 6 (OtherKind "ColonToken") 27 27 28 [];
     mkNode 7 (OtherKind "NumberKeyword") 28 29 35 []].

Definition ctorPlain_b : Node :=
  mkNode 9 Parameter_ 36 37 46
    [mkNode 10 (OtherKind "Identifier") 37 37 38 [];
     mkNode 11 (OtherKind "ColonToken") 38 38 39 [];
     mkNode 12 (OtherKind "StringKeyword") 39 40 46 []].

Definition ctorPlain_signature : Node :=
  mkNode 3 SyntaxList 26 26 46
    [ctorPlain_a;
     mkNode 8 (OtherKind "CommaToken") 35 35 36 [];
     ctorPlain_b].

Definition ctorPlain_ctor : Node :=
  mkNode 0 (OtherKind "Constructor") 9 14 50
    [mkNode 1 (OtherKind "ConstructorKeyword") 14 14 25 [];
     mkNode 2 (OtherKind "OpenParenToken") 25 25 26 [];
     ctorPlain_signature;
     mkNode 13 (OtherKind "CloseParenToken") 46 46 47 [];
     mkNode 14 Block 47 48 50 []].


(** A character of an indent unit. *)
Definition indentChar (c : ascii) : Prop := c = tab \/ c = space.

(** The form of a failure reported for the keyword [node]: located at the
    keyword, with the control-statement message, and a fix that replaces one
    character at the keyword's full start by a line feed and as many indent
    units as the indent count, which is not negative. *)
Definition controlFailureShape (w : Walker) (sf : SourceFile) (node : Node)
           (failure : RuleFailure) : Prop :=
  failStart failure = getStart node /\
  failWidth failure = getWidth node /\
  failMessage failure = Rule.ControlStatementsOwnLineMessage /\
  replStart (failFix failure) = getFullStart node /\
  replLength (failFix failure) = 1 /\
  (0 <= getIndentCount w sf node 2)%Z /\
  exists units,
    replText (failFix failure) = nl :: units /\
    Forall indentChar units /\
    length units = Z.to_nat (getIndentCount w sf node 2) * length (indent w).

(** The text has a comma directly followed by a space. *)
Fixpoint hasCommaSpace (s : text) : bool :=
  match s with
  | c :: (c2 :: _) as tl =>
      (Ascii.eqb c comma && Ascii.eqb c2 space) || hasCommaSpace tl
  | _ => false
  end.

(** ** The JavaScript operations: basic facts *)

Lemma repeat_nonneg (s : text) (count : Z) :
  (0 <= count)%Z ->
  Js.repeat s count = Ok (List.concat (List.repeat s (Z.to_nat count))).
Proof.
  intros H. unfold Js.repeat.
  destruct (Z.ltb_spec count 0); [lia | reflexivity].
Qed.

Lemma repeat_negative (s : text) (count : Z) :
  (count < 0)%Z -> Js.repeat s count = Throw RangeError.
Proof.
  intros H. unfold Js.repeat.
  destruct (Z.ltb_spec count 0); [reflexivity | lia].
Qed.

Lemma ceilDiv_bounds (a b : Z) :
  (0 < b)%Z ->
  (b * (Js.ceilDiv a b - 1) < a <= b * Js.ceilDiv a b)%Z.
Proof.
  intros Hb. unfold Js.ceilDiv.
  pose proof (Z.div_mod (- a) b ltac:(lia)) as Hdm.
  pose proof (Z.mod_pos_bound (- a) b Hb) as Hm.
  nia.
Qed.

Lemma ceilDiv_unique (a b n : Z) :
  (0 < b)%Z -> (b * (n - 1) < a <= b * n)%Z -> Js.ceilDiv a b = n.
Proof.
  intros Hb Hn. pose proof (ceilDiv_bounds a Hb) as Hc. nia.
Qed.

Lemma ceilDiv_nonneg (a b : Z) :
  (0 < b)%Z -> (0 <= a)%Z -> (0 <= Js.ceilDiv a b)%Z.
Proof.
  intros Hb Ha. pose proof (ceilDiv_bounds a Hb) as Hc. nia.
Qed.

(** ** The walker's constructor *)

Lemma newWalker_inv (args : list RuleArgument) (w : Walker) :
  newWalker args = Ok w ->
  tabs w = hasOption args OPTION_USE_TABS /\
  ((tabs w = true /\ indent w = [tab]) \/
   (tabs w = false /\ (0 < size w)%Z /\
    indent w = List.repeat space (Z.to_nat (size w)))).
Proof.
  unfold newWalker. intros H.
  destruct (if truthy (nth_error args 2) then nth_error args 2
            else Some (ArgNumber 4)) as [[s | n] |] eqn:E; try discriminate.
  assert (Hn : n <> 0%Z).
  { destruct (truthy (nth_error args 2)) eqn:T.
    - rewrite E in T. simpl in T. destruct (Z.eqb_spec n 0); [discriminate | assumption].
    - injection E as <-. lia. }
  destruct (hasOption args OPTION_USE_TABS) eqn:T; simpl in H.
  - injection H as <-. simpl. auto.
  - unfold Js.repeat in H. destruct (Z.ltb_spec n 0); simpl in H; [discriminate |].
    injection H as <-. simpl. split; [reflexivity |]. right.
    split; [reflexivity |]. split; [lia |].
    clear. induction (Z.to_nat n); simpl; [reflexivity | now f_equal].
Qed.

Lemma getIndentCount_nonneg (args : list RuleArgument) (w : Walker)
      (sf : SourceFile) (node : Node) :
  newWalker args = Ok w -> (0 <= getIndentCount w sf node 0)%Z.
Proof.
  intros H. apply newWalker_inv in H as [_ [[T _] | [T [S _]]]];
    unfold getIndentCount; rewrite T.
  - lia.
  - apply ceilDiv_nonneg; lia.
Qed.

(** ** The loop over the parameters of a constructor *)

Section ScanParameters.

Variable sf : SourceFile.

Lemma NoDup_neighboursDiffer (l : list nat) : NoDup l -> neighboursDiffer l.
Proof.
  induction 1 as [| a l Hnotin Hnd IH]; simpl; [exact I |].
  destruct l as [| b l']; [exact I |].
  split; [| exact IH].
  intros ->. apply Hnotin. now left.
Qed.

(** Once no parameter starts on the line of the one before it (the line
    the scan starts from counting as the first "before"), the scan ends
    without asking for a fix, whatever it has seen. *)
Lemma scanParameters_neighboursDiffer (ps : list Node) :
  forall (hasProperties : bool) (previousLine : nat),
    neighboursDiffer (previousLine :: map (startLine sf) ps) ->
    scanParameters sf ps hasProperties previousLine = false.
Proof.
  induction ps as [| p rest IH]; intros hp prev H; cbn [scanParameters]; [reflexivity |].
  cbn [map neighboursDiffer] in H. destruct H as [Hne Hrest].
  fold (startLine sf p).
  destruct (Nat.eqb_spec (startLine sf p) prev) as [E | _]; [congruence |].
  rewrite andb_false_r. apply IH. exact Hrest.
Qed.

(** Without a property seen so far, a parameter that declares none is
    passed over. *)
Lemma scanParameters_plain (p : Node) (rest : list Node) (previousLine : nat) :
  declaresProperty p = false ->
  scanParameters sf (p :: rest) false previousLine
  = scanParameters sf rest false (startLine sf p).
Proof.
  intros H. cbn [scanParameters]. rewrite H. reflexivity.
Qed.

Lemma scanParameters_no_property (ps : list Node) :
  forall previousLine : nat,
    existsb declaresProperty ps = false ->
    scanParameters sf ps false previousLine = false.
Proof.
  induction ps as [| p rest IH]; intros prev H; cbn [scanParameters existsb] in *; [reflexivity |].
  apply orb_false_iff in H as [Hp Hrest].
  rewrite Hp. cbn [orb andb]. apply IH. exact Hrest.
Qed.

(** All parameters on the line the scan starts from, one of them a
    property: the scan asks for a fix. *)
Lemma scanParameters_one_line (ps : list Node) :
  forall (hasProperties : bool) (previousLine : nat),
    (forall p, In p ps -> startLine sf p = previousLine) ->
    (hasProperties = true /\ ps <> []) \/ existsb declaresProperty ps = true ->
    scanParameters sf ps hasProperties previousLine = true.
Proof.
  induction ps as [| p rest IH]; intros hp prev Hline Hprop;
    cbn [scanParameters existsb] in *.
  - destruct Hprop as [[_ H] | H]; [now elim H | discriminate].
  - fold (startLine sf p). rewrite (Hline p (or_introl eq_refl)), Nat.eqb_refl.
    rewrite andb_true_r.
    destruct (hp || declaresProperty p) eqn:E; [reflexivity |].
    apply orb_false_iff in E as [-> E]. rewrite E in Hprop.
    apply IH.
    + intros q Hq. apply Hline. now right.
    + right. destruct Hprop as [[H _] | H]; [discriminate | exact H].
Qed.

Lemma last_cons_default (l : list nat) :
  forall a d : nat, last (a :: l) d = last l a.
Proof.
  induction l as [| b l IH]; intros a d; [reflexivity |].
  change (last (a :: b :: l) d) with (last (b :: l) d).
  rewrite (IH b d), (IH b a). reflexivity.
Qed.

(** The trigger, in full: the scan asks for a fix exactly when some
    parameter, at or after the first one that declares a property, starts on
    the line of its predecessor (of the constructor, for the first). *)
Lemma scanParameters_true_iff (ps : list Node) :
  forall (hasProperties : bool) (previousLine : nat),
    scanParameters sf ps hasProperties previousLine = true <->
    exists before p after,
      ps = before ++ p :: after /\
      hasProperties || existsb declaresProperty (before ++ [p]) = true /\
      startLine sf p = last (map (startLine sf) before) previousLine.
Proof.
  induction ps as [| p rest IH]; intros hp prev; cbn [scanParameters].
  - split; [discriminate |].
    intros (before & q & after & E & _). destruct before; discriminate.
  - fold (startLine sf p).
    destruct ((hp || declaresProperty p) && (startLine sf p =? prev)) eqn:T.
    + split; [| reflexivity]. intros _.
      apply andb_true_iff in T as [Tp Tl]. apply Nat.eqb_eq in Tl.
      exists [], p, rest. simpl. rewrite orb_false_r. auto.
    + rewrite IH. split.
      * intros (before & q & after & E & Hp & Hl).
        exists (p :: before), q, after. subst rest. split; [reflexivity |].
        split.
        -- simpl. rewrite orb_assoc. exact Hp.
        -- rewrite Hl. cbn [map]. now rewrite last_cons_default.
      * intros (before & q & after & E & Hp & Hl).
        destruct before as [| b before].
        -- simpl in *. injection E as <- <-. rewrite orb_false_r in Hp.
           rewrite Hp, Hl, Nat.eqb_refl in T. discriminate.
        -- simpl in E. injection E as <- ->.
           exists before, q, after. split; [reflexivity |]. split.
           ++ simpl in Hp. rewrite orb_assoc in Hp. exact Hp.
           ++ rewrite Hl. cbn [map]. now rewrite last_cons_default.
Qed.

End ScanParameters.

(** ** The replacement of comma + space *)

Section ReplaceCommaSpace.

Variable replacement : text.

Local Notation "'rcs'" := (Js.replaceCommaSpace replacement) (only parsing).

Lemma replace_unfold (x y : ascii) (s : text) :
  rcs (x :: y :: s)
  = if Ascii.eqb x comma && Ascii.eqb y space
       && negb (match s with c3 :: _ => Ascii.eqb c3 nl | [] => false end)
    then replacement ++ rcs s
    else x :: rcs (y :: s).
Proof. reflexivity. Qed.

Lemma replace_other (c : ascii) (s : text) :
  c <> comma -> rcs (c :: s) = c :: rcs s.
Proof.
  intros H. cbn [Js.replaceCommaSpace].
  destruct s as [| c2 tl2]; [reflexivity |].
  destruct (Ascii.eqb_spec c comma); [contradiction | reflexivity].
Qed.

Lemma replace_comma_kept (s : text) :
  notStartingWith space s -> rcs (comma :: s) = comma :: rcs s.
Proof.
  intros H. cbn [Js.replaceCommaSpace].
  destruct s as [| c2 tl2]; [reflexivity |].
  simpl in H. destruct (Ascii.eqb_spec c2 space); [contradiction |].
  rewrite andb_false_r. reflexivity.
Qed.

Lemma replace_match (s : text) :
  notStartingWith nl s ->
  rcs (comma :: space :: s) = replacement ++ rcs s.
Proof.
  intros H. cbn [Js.replaceCommaSpace].
  destruct s as [| c3 tl3]; [reflexivity |].
  simpl in H. destruct (Ascii.eqb_spec c3 nl); [contradiction | reflexivity].
Qed.

Lemma replace_before_line_feed (s : text) :
  rcs (comma :: space :: nl :: s) = comma :: space :: nl :: rcs s.
Proof.
  cbn [Js.replaceCommaSpace]. simpl.
  destruct s; reflexivity.
Qed.

Lemma replace_no_comma (a b : text) :
  ~ In comma a -> rcs (a ++ b) = a ++ rcs b.
Proof.
  induction a as [| c a IH]; intros H; [reflexivity |].
  cbn [app]. rewrite replace_other.
  - f_equal. apply IH. intros Hin. apply H. now right.
  - intros ->. apply H. now left.
Qed.

(** The replacement is local: the text can be cut before any character that
    is neither a space nor a line feed, and the two parts replaced apart. *)
Lemma replace_cut_bounded (n : nat) :
  forall (a : text) (c : ascii) (b : text),
    length a <= n -> c <> space -> c <> nl ->
    rcs (a ++ c :: b) = rcs a ++ rcs (c :: b).
Proof.
  induction n as [| n IH]; intros a c b Hlen Hs Hn.
  - destruct a; [reflexivity | simpl in Hlen; lia].
  - destruct a as [| x a]; [reflexivity |].
    destruct a as [| y a].
    + (* the last character of the left part *)
      cbn [app Js.replaceCommaSpace].
      destruct (Ascii.eqb_spec c space); [contradiction |].
      rewrite andb_false_r. reflexivity.
    + cbn [app]. simpl in Hlen.
      assert (Hsame :
                (match a ++ c :: b with c3 :: _ => Ascii.eqb c3 nl | [] => false end)
                = (match a with c3 :: _ => Ascii.eqb c3 nl | [] => false end)).
      { destruct a as [| z a]; [| reflexivity].
        simpl. destruct (Ascii.eqb_spec c nl); [contradiction | reflexivity]. }
      rewrite (replace_unfold x y (a ++ c :: b)), (replace_unfold x y a), Hsame.
      destruct (Ascii.eqb x comma && Ascii.eqb y space
                && negb (match a with c3 :: _ => Ascii.eqb c3 nl | [] => false end)).
      * rewrite <- app_assoc. f_equal. apply IH; [lia | assumption | assumption].
      * cbn [app]. f_equal.
        change (y :: a ++ c :: b) with ((y :: a) ++ c :: b).
        apply IH; [simpl; lia | assumption | assumption].
Qed.

Lemma replace_cut (a : text) (c : ascii) (b : text) :
  c <> space -> c <> nl ->
  rcs (a ++ c :: b) = rcs a ++ rcs (c :: b).
Proof.
  apply (@replace_cut_bounded (length a)). lia.
Qed.

Lemma comma_not_space : comma <> space.
Proof. discriminate. Qed.

Lemma comma_not_nl : comma <> nl.
Proof. discriminate. Qed.

(** Every comma followed by a space and then by something that is not a
    line feed is replaced, wherever it stands. *)
Lemma replace_occurrence (a b : text) :
  notStartingWith nl b ->
  rcs (a ++ comma :: space :: b) = rcs a ++ replacement ++ rcs b.
Proof.
  intros H.
  rewrite (replace_cut a _ comma_not_space comma_not_nl), replace_match by exact H.
  reflexivity.
Qed.

(** A comma that no space follows stays as it is. *)
Lemma replace_comma_without_space (a b : text) :
  notStartingWith space b ->
  rcs (a ++ comma :: b) = rcs a ++ comma :: rcs b.
Proof.
  intros H.
  rewrite (replace_cut a _ comma_not_space comma_not_nl), replace_comma_kept by exact H.
  reflexivity.
Qed.

(** Comma, space, line feed: left alone. *)
Lemma replace_occurrence_before_line_feed (a b : text) :
  rcs (a ++ comma :: space :: nl :: b)
  = rcs a ++ comma :: space :: nl :: rcs b.
Proof.
  rewrite (replace_cut a _ comma_not_space comma_not_nl), replace_before_line_feed.
  reflexivity.
Qed.

End ReplaceCommaSpace.

(** ** The layout of the constructor fix *)

Lemma replace_join (ind1 ind0 : text) (ps : list text) :
  ~ In comma ind0 ->
  Forall plainParameter ps ->
  Js.replaceCommaSpace (comma :: nl :: ind1)
    (join [comma; space] ps ++ nl :: ind0)
  = join (comma :: nl :: ind1) ps ++ nl :: ind0.
Proof.
  intros H0 Hps.
  assert (Htail : Js.replaceCommaSpace (comma :: nl :: ind1) (nl :: ind0) = nl :: ind0).
  { rewrite <- (app_nil_r (nl :: ind0)) at 1.
    rewrite replace_no_comma; [now rewrite app_nil_r |].
    intros [E | Hin]; [discriminate | contradiction]. }
  induction Hps as [| p rest Hp Hrest IH]; [exact Htail |].
  destruct Hp as (Hne & Hhd & Hcomma).
  destruct rest as [| q rest'].
  - cbn [join]. rewrite replace_no_comma, Htail by exact Hcomma. reflexivity.
  - change (join [comma; space] (p :: q :: rest'))
      with (p ++ [comma; space] ++ join [comma; space] (q :: rest')).
    change (join (comma :: nl :: ind1) (p :: q :: rest'))
      with (p ++ (comma :: nl :: ind1) ++ join (comma :: nl :: ind1) (q :: rest')).
    rewrite <- !app_assoc. rewrite replace_no_comma by exact Hcomma.
    f_equal. cbn [app].
    rewrite replace_match.
    + rewrite IH. reflexivity.
    + inversion Hrest as [| ? ? (Hqne & Hqhd & _) _]; subst.
      destruct q as [| c q]; [now elim Hqne |].
      destruct rest'; exact Hqhd.
Qed.

Lemma multiline_layout (ind1 ind0 : text) (ps : list text) :
  ~ In comma ind1 -> ~ In comma ind0 ->
  Forall plainParameter ps ->
  Js.replaceCommaSpace (comma :: nl :: ind1)
    ([nl] ++ ind1 ++ join [comma; space] ps ++ [nl] ++ ind0)
  = nl :: ind1 ++ join (comma :: nl :: ind1) ps ++ nl :: ind0.
Proof.
  intros H1 H0 Hps.
  change ([nl] ++ ind1 ++ join [comma; space] ps ++ [nl] ++ ind0)
    with ((nl :: ind1) ++ join [comma; space] ps ++ nl :: ind0).
  rewrite replace_no_comma.
  - rewrite replace_join by assumption. reflexivity.
  - intros [E | Hin]; [discriminate | contradiction].
Qed.

Lemma indentation_no_comma (args : list RuleArgument) (w : Walker) (k : Z) :
  newWalker args = Ok w -> ~ In comma (indentation w k).
Proof.
  intros H. unfold indentation.
  assert (Hunit : ~ In comma (indent w)).
  { apply newWalker_inv in H as [_ [[_ ->] | [_ [_ ->]]]].
    - intros [E | []]. discriminate.
    - intros Hin. apply repeat_spec in Hin. discriminate. }
  induction (Z.to_nat k) as [| n IH]; simpl; [tauto |].
  rewrite in_app_iff. tauto.
Qed.

(** ** Lines of a source text *)

Lemma filter_le_length (l : list nat) (p q : nat) :
  p <= q ->
  length (filter (fun s => s <=? p) l) <= length (filter (fun s => s <=? q) l).
Proof.
  intros Hpq. induction l as [| h l IH]; simpl; [lia |].
  destruct (Nat.leb_spec h p), (Nat.leb_spec h q); simpl; lia.
Qed.

Lemma filter_lt_length (l : list nat) (x p q : nat) :
  In x l -> p < x -> x <= q ->
  length (filter (fun s => s <=? p) l) < length (filter (fun s => s <=? q) l).
Proof.
  intros Hin Hpx Hxq. induction l as [| h l IH]; [contradiction |].
  pose proof (@filter_le_length l p q ltac:(lia)) as Hle.
  simpl. destruct Hin as [-> | Hin].
  - destruct (Nat.leb_spec x p), (Nat.leb_spec x q); simpl; lia.
  - specialize (IH Hin).
    destruct (Nat.leb_spec h p), (Nat.leb_spec h q); simpl; lia.
Qed.

Lemma lineOf_mono (sf : SourceFile) (p q : nat) :
  p <= q -> lineOf sf p <= lineOf sf q.
Proof.
  intros H. unfold lineOf, getLineAndCharacterOfPosition. cbn [line].
  pose proof (@filter_le_length (computeLineStarts (fileText sf)) p q H). lia.
Qed.

Lemma lineStartsFrom_unfold (c a : ascii) (s : text) (offset : nat) :
  lineStartsFrom (c :: a :: s) offset
  = if Ascii.eqb c cr then
      if Ascii.eqb a nl
      then (offset + 2) :: lineStartsFrom s (offset + 2)
      else (offset + 1) :: lineStartsFrom (a :: s) (offset + 1)
    else if Ascii.eqb c nl
         then (offset + 1) :: lineStartsFrom (a :: s) (offset + 1)
         else lineStartsFrom (a :: s) (offset + 1).
Proof. reflexivity. Qed.

(** A line starts after every line feed. *)
Lemma lineStartsFrom_line_feed (s : text) :
  (forall offset f, nth_error s f = Some nl ->
                    In (offset + f + 1) (lineStartsFrom s offset)) /\
  (forall c offset f, nth_error (c :: s) f = Some nl ->
                      In (offset + f + 1) (lineStartsFrom (c :: s) offset)).
Proof.
  induction s as [| a s [IHs IHcs]].
  - split; intros; [destruct f; discriminate |].
    destruct f as [| f]; [| destruct f; discriminate].
    injection H as ->. simpl. left. lia.
  - split; [apply IHcs |].
    intros c offset f H.
    destruct f as [| f].
    + injection H as ->. simpl. left. lia.
    + cbn [nth_error] in H. rewrite lineStartsFrom_unfold.
      destruct (Ascii.eqb_spec c cr) as [-> | _].
      * destruct (Ascii.eqb_spec a nl) as [-> | Ha].
        -- destruct f as [| f]; [left; lia |].
           right. cbn [nth_error] in H.
           replace (offset + S (S f) + 1) with (offset + 2 + f + 1) by lia.
           apply IHs. exact H.
        -- right. replace (offset + S f + 1) with (offset + 1 + f + 1) by lia.
           apply IHcs. exact H.
      * replace (offset + S f + 1) with (offset + 1 + f + 1) by lia.
        destruct (Ascii.eqb c nl); [right |]; apply IHcs; exact H.
Qed.

(** Two positions with a line feed between them are on different lines. *)
Lemma lineOf_across_line_feed (sf : SourceFile) (a b : text) (p q : nat) :
  fileText sf = a ++ nl :: b ->
  p <= length a -> length a < q ->
  lineOf sf p < lineOf sf q.
Proof.
  intros Htext Hp Hq. unfold lineOf, getLineAndCharacterOfPosition. cbn [line].
  assert (Hin : In (length a + 1) (computeLineStarts (fileText sf))).
  { right. apply (proj1 (lineStartsFrom_line_feed (fileText sf)) 0 (length a)).
    rewrite Htext, nth_error_app2, Nat.sub_diag by lia. reflexivity. }
  pose proof (@filter_lt_length _ (length a + 1) p q Hin ltac:(lia) ltac:(lia)) as Hlt.
  assert (Hpos : 1 <= length (filter (fun s => s <=? p)
                                (computeLineStarts (fileText sf)))).
  { unfold computeLineStarts. simpl. lia. }
  lia.
Qed.

(** ** The constructor inspector *)

Lemma visitConstructorDeclaration_unfold (args : list RuleArgument) (w : Walker)
      (sf : SourceFile) (node signature : Node) :
  newWalker args = Ok w ->
  signatureOf node = Some signature ->
  visitConstructorDeclaration w sf node
  = if scanParameters sf (parametersOf signature) false (startLine sf node)
    then Ok [constructorFailure w sf node signature]
    else Ok [].
Proof.
  intros Hw Hsig. unfold visitConstructorDeclaration.
  unfold signatureOf in Hsig. rewrite Hsig.
  fold (parametersOf signature). fold (startLine sf node).
  destruct (scanParameters sf (parametersOf signature) false (startLine sf node));
    [| reflexivity].
  pose proof (@getIndentCount_nonneg args w sf node Hw) as Hcount.
  rewrite !repeat_nonneg by lia. reflexivity.
Qed.

Lemma visitConstructorDeclaration_no_list (w : Walker) (sf : SourceFile) (node : Node) :
  signatureOf node = None -> visitConstructorDeclaration w sf node = Ok [].
Proof.
  intros H. unfold visitConstructorDeclaration.
  unfold signatureOf in H. rewrite H. reflexivity.
Qed.

(** ** The node before a keyword *)

Section PreviousNode.

Variable children : list Node.

Lemma indexOfFrom_range (node : Node) :
  forall (l : list Node) (i : Z),
    indexOfFrom l node i = (-1)%Z \/
    (i <= indexOfFrom l node i < i + Z.of_nat (length l))%Z.
Proof.
  induction l as [| c l IH]; intros i; simpl; [now left |].
  destruct (uid c =? uid node); [right; lia |].
  destruct (IH (i + 1)%Z) as [-> | H]; [now left | right; lia].
Qed.

Lemma indexOf_range (node : Node) :
  (-1 <= indexOf children node < Z.of_nat (length children))%Z.
Proof.
  unfold indexOf. destruct (indexOfFrom_range node children 0) as [-> | H]; lia.
Qed.

(** Within the array, the loop never reads an absent child: it stops at a
    block or catch clause, or at -1 when there is none before. *)
Lemma previousPosition_total (n : nat) :
  n <= length children ->
  (previousPosition children n = Ok (-1)%Z /\
   forall i c, i < n -> nth_error children i = Some c ->
               isBlockOrCatchClause c = false) \/
  (exists i c, i < n /\ nth_error children i = Some c /\
               isBlockOrCatchClause c = true /\
               previousPosition children n = Ok (Z.of_nat i)).
Proof.
  induction n as [| n IH]; intros Hn.
  - left. split; [reflexivity | intros; lia].
  - cbn [previousPosition].
    destruct (nth_error children n) as [c |] eqn:E.
    2: { apply nth_error_None in E. lia. }
    destruct (isBlockOrCatchClause c) eqn:B.
    + right. exists n, c. auto.
    + destruct (IH ltac:(lia)) as [[Hp Hall] | (i & c' & Hi & Hc & Hb & Hp)].
      * left. split; [exact Hp |].
        intros i c' Hi Hc. destruct (Nat.eq_dec i n) as [-> | Hne].
        -- congruence.
        -- apply (Hall i c'); [lia | exact Hc].
      * right. exists i, c'. auto.
Qed.

(** [getPreviousNode] never raises; it yields [undefined] exactly when no
    child before the node is a block or a catch clause. *)
Lemma getPreviousNode_cases (node : Node) :
  (getPreviousNode children node = Ok None /\
   forall i c, (Z.of_nat i < indexOf children node)%Z ->
               nth_error children i = Some c ->
               isBlockOrCatchClause c = false) \/
  (exists i c, (Z.of_nat i < indexOf children node)%Z /\
               nth_error children i = Some c /\
               isBlockOrCatchClause c = true /\
               getPreviousNode children node = Ok (Some c)).
Proof.
  unfold getPreviousNode.
  pose proof (indexOf_range node) as Hr.
  replace (indexOf children node - 1 + 1)%Z with (indexOf children node) by lia.
  destruct (@previousPosition_total (Z.to_nat (indexOf children node)) ltac:(lia))
    as [[Hp Hall] | (i & c & Hi & Hc & Hb & Hp)]; rewrite Hp; cbn [Js.bind].
  - left. split; [reflexivity |].
    intros i c Hi. apply Hall. lia.
  - right. exists i, c. repeat split; [lia | exact Hc | exact Hb |].
    unfold at_. destruct (Z.ltb_spec (Z.of_nat i) 0); [lia |].
    now rewrite Nat2Z.id, Hc.
Qed.

Lemma getPreviousNode_absent (node : Node) :
  (forall i c, (Z.of_nat i < indexOf children node)%Z ->
               nth_error children i = Some c ->
               isBlockOrCatchClause c = false) ->
  getPreviousNode children node = Ok None.
Proof.
  intros Hall.
  destruct (getPreviousNode_cases node) as [[H _] | (i & c & Hi & Hc & Hb & _)];
    [exact H |].
  rewrite (Hall i c Hi Hc) in Hb. discriminate.
Qed.

End PreviousNode.

(** ** The catch / finally / else inspector *)

Section ControlKeyword.

Variable w : Walker.
Variable sf : SourceFile.

Lemma checkTryStatement_unfold (tryStatement : TryStatement)
      (node previousNode : Node) :
  getPreviousNode (getChildren (tryNode tryStatement)) node = Ok (Some previousNode) ->
  checkTryStatement w sf tryStatement node = sameLineCheck w sf previousNode node.
Proof.
  intros H. unfold checkTryStatement, sameLineCheck. rewrite H.
  cbn [Js.bind areOnSameLine].
  unfold lineOf, getEndPosition, getStartPosition.
  destruct (_ =? _); [| reflexivity].
  unfold Js.repeat, controlFailure, indentation.
  destruct (getIndentCount w sf node 2 <? 0)%Z; reflexivity.
Qed.

Lemma checkTryStatement_absent (tryStatement : TryStatement) (node : Node) :
  getPreviousNode (getChildren (tryNode tryStatement)) node = Ok None ->
  checkTryStatement w sf tryStatement node = Throw TypeError.
Proof.
  intros H. unfold checkTryStatement. rewrite H. reflexivity.
Qed.

Lemma visitIfStatement_unfold (ifStatement elseKeyword previousNode : Node) :
  hd_error (filter (isKind ElseKeyword) (getChildren ifStatement)) = Some elseKeyword ->
  at_ (getChildren ifStatement)
      (indexOf (getChildren ifStatement) elseKeyword - 1)%Z = Some previousNode ->
  visitIfStatement w sf ifStatement
  = if existsb (isKind Block) (getChildren ifStatement)
    then sameLineCheck w sf previousNode elseKeyword
    else Ok [].
Proof.
  intros He Hp. unfold visitIfStatement, sameLineCheck. rewrite He, Hp.
  cbn [Js.bind areOnSameLine].
  destruct (existsb (isKind Block) (getChildren ifStatement)); [| reflexivity].
  cbn [negb].
  unfold lineOf, getEndPosition, getStartPosition.
  destruct (_ =? _); [| reflexivity].
  unfold Js.repeat, controlFailure, indentation.
  destruct (getIndentCount w sf elseKeyword 2 <? 0)%Z; reflexivity.
Qed.

(** Without a block among the children nothing is reported for the else
    keyword, on whatever line it is. *)
Lemma visitIfStatement_no_block (ifStatement : Node) :
  existsb (isKind Block) (getChildren ifStatement) = false ->
  emitted (visitIfStatement w sf ifStatement) = [].
Proof.
  intros H. unfold visitIfStatement. rewrite H. cbn [negb].
  destruct (hd_error _) as [e |]; [| reflexivity].
  destruct (areOnSameLine _ _ _); reflexivity.
Qed.

End ControlKeyword.

(** ** The walkers of the examples *)

Lemma newWalker_default : newWalker [] = Ok spacesWalker.
Proof. reflexivity. Qed.

Lemma newWalker_tabs : newWalker [ArgString "tabs"] = Ok tabsWalker.
Proof. reflexivity. Qed.

(** * The claims *)

(** ** Same-line catch, finally and else (C1, C5, C10) *)

(** What holds of the shared check in general: with a previous node and an
    indent count that is not negative, a failure is reported exactly when
    the previous node ends on the line the keyword starts on, and it is
    [controlFailure]: a replacement of one character at the keyword's full
    start by a line feed and the indentation. *)
Lemma sameLineCheck_reports (w : Walker) (sf : SourceFile) (previousNode node : Node) :
  (0 <= getIndentCount w sf node 2)%Z ->
  (lineOf sf (getEnd previousNode) = lineOf sf (getStart node) ->
   sameLineCheck w sf previousNode node = Ok [controlFailure w sf node]) /\
  (lineOf sf (getEnd previousNode) <> lineOf sf (getStart node) ->
   sameLineCheck w sf previousNode node = Ok []).
Proof.
  intros Hcount. unfold sameLineCheck.
  destruct (Nat.eqb_spec (lineOf sf (getEnd previousNode)) (lineOf sf (getStart node)));
    split; intros H; try contradiction; try reflexivity.
  destruct (Z.ltb_spec (getIndentCount w sf node 2) 0); [lia | reflexivity].
Qed.

(** Whenever the check of a try statement reports, it reports
    [controlFailure] alone and the previous node ends on the line of the
    keyword; it does report when they share the line and the indent count is
    not negative. *)
Lemma checkTryStatement_reports_iff (w : Walker) (sf : SourceFile)
      (tryStatement : TryStatement) (node previousNode : Node) :
  getPreviousNode (getChildren (tryNode tryStatement)) node = Ok (Some previousNode) ->
  (forall failure,
      In failure (emitted (checkTryStatement w sf tryStatement node)) ->
      failure = controlFailure w sf node /\
      lineOf sf (getEnd previousNode) = lineOf sf (getStart node)) /\
  ((0 <= getIndentCount w sf node 2)%Z ->
   lineOf sf (getEnd previousNode) = lineOf sf (getStart node) ->
   checkTryStatement w sf tryStatement node = Ok [controlFailure w sf node]).
Proof.
  intros Hprev. rewrite (checkTryStatement_unfold w sf _ _ Hprev). split.
  - unfold sameLineCheck.
    destruct (Nat.eqb_spec (lineOf sf (getEnd previousNode))
                (lineOf sf (getStart node))) as [E | _]; [| intros ? []].
    destruct (_ <? _)%Z; [intros ? [] |].
    intros failure [<- | []]. auto.
  - intros Hcount. apply sameLineCheck_reports. exact Hcount.
Qed.

(** The statement without braces of the specification: nothing reported. *)
Lemma ifElseBare_no_violation :
  visitIfStatement spacesWalker ifElseBare_source ifElseBare_statement = Ok [].
Proof. vm_compute. reflexivity. Qed.

(** C1 (the code departs from it). The claim: for a catch clause, finally
    or else keyword under test a violation is emitted if and only if the
    preceding node ends on the line the keyword starts on. With tabs
    configured and the catch keyword right after the closing brace in
    column 1, [try {] / [}catch (e) {}], the two are on the same line, the
    indent count is 1 - 2 = -1, and ['\t'.repeat(-1)] raises a RangeError:
    nothing is emitted. *)
Theorem C1_tabs_tight_catch_raises :
  let source := tryTight_source in
  let statement := mkTryStatement tryTight_statement (Some tryTight_catch) in
  newWalker [ArgString "tabs"] = Ok tabsWalker /\
  getText source tryTight_block = str "{" ++ [nl] ++ str "}" /\
  getText source tryTight_catch = str "catch (e) {}" /\
  getPreviousNode (getChildren tryTight_statement) tryTight_catch
  = Ok (Some tryTight_block) /\
  areOnSameLine source (Some tryTight_block) tryTight_catch = Ok true /\
  getIndentCount tabsWalker source tryTight_catch 2 = (-1)%Z /\
  checkTryStatement tabsWalker source statement tryTight_catch = Throw RangeError /\
  emitted (visitTryStatement tabsWalker source statement) = [].
Proof.
  cbv zeta. repeat split; vm_compute; reflexivity.
Qed.

(** C5 (the code departs from it). The claim: with a braced consequent and
    the else keyword on the line of the closing brace a violation is
    emitted. With tabs configured and [if (x) {] / [}else {}] the indent
    count is -1 and the visit raises a RangeError instead. The first half of
    the claim (no block among the children, no violation) holds:
    [visitIfStatement_no_block]. *)
Theorem C5_tabs_tight_else_raises :
  let source := ifTight_source in
  getText source ifTight_consequent = str "{" ++ [nl] ++ str "}" /\
  getText source ifTight_else = str "else" /\
  at_ (getChildren ifTight_statement)
      (indexOf (getChildren ifTight_statement) ifTight_else - 1)%Z
  = Some ifTight_consequent /\
  kind ifTight_consequent = Block /\
  lineOf source (getEnd ifTight_consequent) = lineOf source (getStart ifTight_else) /\
  getIndentCount tabsWalker source ifTight_else 2 = (-1)%Z /\
  visitIfStatement tabsWalker source ifTight_statement = Throw RangeError /\
  emitted (visitIfStatement tabsWalker source ifTight_statement) = [].
Proof.
  cbv zeta. repeat split; vm_compute; reflexivity.
Qed.

(** On a tree in which no block or catch clause precedes the keyword, the
    search for the previous node ends with [undefined] and the check raises a
    TypeError when it asks for its end position; with such a sibling it
    raises no TypeError. The first case is met on hand-built trees only: the
    parser puts a block before the catch clause even where the text has
    none. *)
Lemma checkTryStatement_absent_sibling (w : Walker) (sf : SourceFile)
        (tryStatement : TryStatement) (node : Node) :
  let children := getChildren (tryNode tryStatement) in
  ((forall i c, (Z.of_nat i < indexOf children node)%Z ->
                nth_error children i = Some c ->
                isBlockOrCatchClause c = false) ->
   getPreviousNode children node = Ok None /\
   checkTryStatement w sf tryStatement node = Throw TypeError /\
   emitted (checkTryStatement w sf tryStatement node) = []) /\
  ((exists i c, (Z.of_nat i < indexOf children node)%Z /\
                nth_error children i = Some c /\
                isBlockOrCatchClause c = true) ->
   checkTryStatement w sf tryStatement node <> Throw TypeError).
Proof.
  cbv zeta. split.
  - intros Hall.
    pose proof (getPreviousNode_absent _ _ Hall) as Hp.
    rewrite (checkTryStatement_absent w sf _ _ Hp). auto.
  - intros (i & c & Hi & Hc & Hb).
    destruct (getPreviousNode_cases (getChildren (tryNode tryStatement)) node)
      as [[_ Hall] | (j & d & _ & _ & _ & Hp)].
    + rewrite (Hall i c Hi Hc) in Hb. discriminate.
    + rewrite (checkTryStatement_unfold w sf _ _ Hp). unfold sameLineCheck.
      destruct (_ =? _); [| discriminate].
      destruct (_ <? _)%Z; discriminate.
Qed.

Lemma tryBare_raises :
  checkTryStatement spacesWalker tryBare_source
    (mkTryStatement tryBare_statement (Some tryBare_catch)) tryBare_catch
  = Throw TypeError.
Proof. vm_compute. reflexivity. Qed.

(** C10. The exemption of unbraced bodies is decided by the direct children
    alone: without a block among them nothing is reported; with one, the
    else branch's included, the same-line check is live and (the indent
    count not being negative) reports the else keyword exactly when it
    starts on the line its previous sibling ends on, whatever that sibling
    is; [if (x) a(); else { b(); }] is such a statement, its consequent
    unbraced, and it is reported. *)
Theorem C10_braced_else_enables_check :
  (forall w sf ifStatement,
      existsb (isKind Block) (getChildren ifStatement) = false ->
      emitted (visitIfStatement w sf ifStatement) = []) /\
  (forall w sf ifStatement elseKeyword previousNode,
      hd_error (filter (isKind ElseKeyword) (getChildren ifStatement))
      = Some elseKeyword ->
      at_ (getChildren ifStatement)
          (indexOf (getChildren ifStatement) elseKeyword - 1)%Z
      = Some previousNode ->
      existsb (isKind Block) (getChildren ifStatement) = true ->
      (0 <= getIndentCount w sf elseKeyword 2)%Z ->
      (lineOf sf (getEnd previousNode) = lineOf sf (getStart elseKeyword) ->
       visitIfStatement w sf ifStatement = Ok [controlFailure w sf elseKeyword]) /\
      (lineOf sf (getEnd previousNode) <> lineOf sf (getStart elseKeyword) ->
       visitIfStatement w sf ifStatement = Ok [])) /\
  (getText ifElseBraced_source ifElseBraced_consequent = str "a();" /\
   kind ifElseBraced_consequent <> Block /\
   at_ (getChildren ifElseBraced_statement)
       (indexOf (getChildren ifElseBraced_statement) ifElseBraced_else - 1)%Z
   = Some ifElseBraced_consequent /\
   visitIfStatement spacesWalker ifElseBraced_source ifElseBraced_statement
   = Ok [controlFailure spacesWalker ifElseBraced_source ifElseBraced_else]).
Proof.
  split; [| split].
  - intros w sf ifStatement H. apply visitIfStatement_no_block. exact H.
  - intros w sf ifStatement elseKeyword previousNode He Hp Hb Hcount.
    rewrite (visitIfStatement_unfold w sf _ He Hp), Hb.
    apply sameLineCheck_reports. exact Hcount.
  - repeat split; try discriminate; vm_compute; reflexivity.
Qed.

Lemma C10_braced_else_enables_check_witness :
  visitIfStatement spacesWalker ifElseBraced_source ifElseBraced_statement
  = Ok [controlFailure spacesWalker ifElseBraced_source ifElseBraced_else].
Proof.
  refine (proj1 (proj1 (proj2 C10_braced_else_enables_check)
                   spacesWalker ifElseBraced_source ifElseBraced_statement
                   ifElseBraced_else ifElseBraced_consequent _ _ _ _) _);
    vm_compute; first [reflexivity | discriminate].
Defined.

(** ** The indent level and the indent unit (C4, C8) *)

(** C4. The indent level of a node is its start column less the offset
    when tabs are configured and the ceiling of that difference divided by
    the indent size otherwise, the ceiling of [a / size] being the integer
    [n] with [size * (n - 1) < a <= size * n]. With size 4, column 9 and
    offset 0 give 3; with tabs, column 3 and offset 2 give 1. *)
Theorem C4_indent_level (args : list RuleArgument) (w : Walker)
        (sf : SourceFile) (node : Node) (offset : Z) :
  newWalker args = Ok w ->
  let column := Z.of_nat (character (getStartPosition sf node)) in
  let level := getIndentCount w sf node offset in
  (tabs w = true -> level = (column - offset)%Z) /\
  (tabs w = false ->
   (0 < size w)%Z /\
   (size w * (level - 1) < column - offset <= size w * level)%Z) /\
  (tabs w = false -> size w = 4%Z -> column = 9%Z -> offset = 0%Z -> level = 3%Z) /\
  (tabs w = true -> column = 3%Z -> offset = 2%Z -> level = 1%Z).
Proof.
  intros Hw column level.
  assert (Hspaces : tabs w = false -> (0 < size w)%Z).
  { intros T. apply newWalker_inv in Hw as [_ [[T' _] | [_ [S _]]]];
      [congruence | exact S]. }
  subst level. unfold getIndentCount. fold column.
  repeat split.
  - intros ->. reflexivity.
  - auto.
  - rewrite H. apply ceilDiv_bounds. auto.
  - rewrite H. apply ceilDiv_bounds. auto.
  - intros -> -> -> ->. reflexivity.
  - intros -> -> ->. reflexivity.
Qed.

Lemma C4_indent_level_witness :
  getIndentCount spacesWalker ctorSpaced_source ctorSpaced_ctor 0 = 1%Z.
Proof.
  pose proof (@C4_indent_level [] spacesWalker ctorSpaced_source ctorSpaced_ctor 0%Z
                eq_refl) as H.
  cbv zeta in H. destruct H as (_ & H & _).
  specialize (H eq_refl). destruct H as (_ & H).
  change (size spacesWalker) with 4%Z in H.
  change (Z.of_nat (character (getStartPosition ctorSpaced_source ctorSpaced_ctor)))
    with 4%Z in H.
  lia.
Defined.

(** C8. Without tabs, a third rule argument that is absent or falsy (0
    included) leaves the size at 4 and the indent unit at four spaces; no
    walker has size 0. *)
Theorem C8_default_indent_unit (args : list RuleArgument) :
  (hasOption args OPTION_USE_TABS = false ->
   truthy (nth_error args 2) = false ->
   newWalker args = Ok {| indent := str "    "; size := 4; tabs := false |}) /\
  (forall w, newWalker args = Ok w -> size w <> 0%Z).
Proof.
  split.
  - intros Ht Hf. unfold newWalker. rewrite Ht, Hf. reflexivity.
  - intros w Hw. unfold newWalker in Hw.
    destruct (truthy (nth_error args 2)) eqn:T.
    + destruct (nth_error args 2) as [[s | n] |]; try discriminate.
      simpl in T. destruct (Z.eqb_spec n 0); [discriminate |].
      destruct (if hasOption args OPTION_USE_TABS then _ else _);
        try discriminate.
      injection Hw as <-. exact n0.
    + destruct (if hasOption args OPTION_USE_TABS then _ else _);
        try discriminate.
      injection Hw as <-. discriminate.
Qed.

Lemma C8_default_indent_unit_witness :
  newWalker [ArgString "first"; ArgString "second"; ArgNumber 0]
  = Ok {| indent := str "    "; size := 4; tabs := false |}.
Proof.
  apply (proj1 (C8_default_indent_unit
                  [ArgString "first"; ArgString "second"; ArgNumber 0]));
    reflexivity.
Defined.

(** ** Constructors with property declarations (C2, C3, C9) *)

(** C2 (the code departs from it). The claim: for a one-line constructor in
    which a property-declaring parameter comes after one that declares none,
    one violation is emitted whose fix puts each parameter on a line of its
    own. For [constructor(a,private b) {}] the violation is emitted, but the
    regular expression asks for a space after the comma: no line feed is
    inserted, the replacement is not the text the claim describes and both
    parameters stay on one line. *)
Lemma C2_comma_alone_not_split :
  let w := spacesWalker in
  let source := ctorTight_source in
  signatureOf ctorTight_ctor = Some ctorTight_signature /\
  parametersOf ctorTight_signature = [ctorTight_a; ctorTight_b] /\
  declaresProperty ctorTight_a = false /\
  declaresProperty ctorTight_b = true /\
  startLine source ctorTight_a = startLine source ctorTight_ctor /\
  startLine source ctorTight_b = startLine source ctorTight_ctor /\
  getText source ctorTight_signature = str "a,private b" /\
  exists failure,
    visitConstructorDeclaration w source ctorTight_ctor = Ok [failure] /\
    replText (failFix failure) = [nl] ++ str "    a,private b" ++ [nl] /\
    specMultilineText w (getIndentCount w source ctorTight_ctor 0)
      (getText source ctorTight_signature)
    = [nl] ++ str "    a," ++ [nl] ++ str "    private b" ++ [nl] /\
    replText (failFix failure)
    <> specMultilineText w (getIndentCount w source ctorTight_ctor 0)
         (getText source ctorTight_signature).
Proof.
  cbv zeta. repeat split; try (vm_compute; reflexivity).
  eexists. split; [vm_compute; reflexivity |].
  repeat split; try (vm_compute; reflexivity).
  vm_compute. discriminate.
Qed.

(** What the inspector does for a one-line constructor in general, its
    parameter list being its first list child and the property parameter
    one the scan detects: exactly one failure, whose fix replaces the span
    of the parameter list by a line feed, count+1 indent units, the text of
    the list, a line feed and count indent units, with every comma followed
    by a space and then not by a line feed replaced, with the space, by a
    comma, a line feed and count+1 indent units. When the parameters hold no
    comma and are separated by a comma and a space, each parameter is on a
    line of its own behind count+1 indent units. *)
Lemma one_line_constructor_fix (args : list RuleArgument) (w : Walker)
        (sf : SourceFile) (node signature : Node)
        (before : list Node) (plain : Node) (between : list Node)
        (property : Node) (after : list Node) :
  newWalker args = Ok w ->
  signatureOf node = Some signature ->
  (forall p, In p (parametersOf signature) -> startLine sf p = startLine sf node) ->
  parametersOf signature = before ++ plain :: between ++ property :: after ->
  declaresProperty plain = false ->
  declaresProperty property = true ->
  let count := getIndentCount w sf node 0 in
  let deeper := indentation w (count + 1) in
  let level := indentation w count in
  exists failure,
    visitConstructorDeclaration w sf node = Ok [failure] /\
    failFix failure
    = mkReplacement (getStart signature) (getEnd signature - getStart signature)
        (Js.replaceCommaSpace (comma :: nl :: deeper)
           ([nl] ++ deeper ++ getText sf signature ++ [nl] ++ level)) /\
    (forall ps,
        getText sf signature = join [comma; space] ps ->
        Forall plainParameter ps ->
        replText (failFix failure)
        = nl :: deeper ++ join (comma :: nl :: deeper) ps ++ nl :: level).
Proof.
  intros Hw Hsig Hline Hps Hplain Hprop count deeper level.
  exists (constructorFailure w sf node signature).
  split; [| split].
  - rewrite (@visitConstructorDeclaration_unfold args w sf node signature Hw Hsig).
    rewrite scanParameters_one_line; [reflexivity | exact Hline |].
    right. rewrite Hps, existsb_app. cbn [existsb].
    rewrite existsb_app. cbn [existsb]. rewrite Hprop.
    now rewrite !orb_true_r.
  - reflexivity.
  - intros ps Htext Hplainps.
    unfold constructorFailure. cbn [failFix addFailureAtNode replText].
    unfold multilineText. fold count. fold deeper. fold level.
    rewrite Htext. apply multiline_layout.
    + apply (@indentation_no_comma args w _ Hw).
    + apply (@indentation_no_comma args w _ Hw).
    + exact Hplainps.
Qed.

Lemma one_line_constructor_fix_example :
  exists failure,
    visitConstructorDeclaration spacesWalker ctorSpaced_source ctorSpaced_ctor
    = Ok [failure] /\
    replText (failFix failure)
    = [nl] ++ str "        a: number," ++ [nl] ++ str "        private b: string"
        ++ [nl] ++ str "    ".
Proof.
  destruct (@one_line_constructor_fix [] spacesWalker ctorSpaced_source ctorSpaced_ctor
              ctorSpaced_signature [] ctorSpaced_a [] ctorSpaced_b [])
    as (failure & Hvisit & _ & Hlayout).
  - reflexivity.
  - reflexivity.
  - intros p Hin.
    change (parametersOf ctorSpaced_signature)
      with [ctorSpaced_a; ctorSpaced_b] in Hin.
    destruct Hin as [<- | [<- | []]]; vm_compute; reflexivity.
  - reflexivity.
  - reflexivity.
  - reflexivity.
  - exists failure. split; [exact Hvisit |].
    rewrite (Hlayout [str "a: number"; str "private b: string"]).
    + vm_compute. reflexivity.
    + vm_compute. reflexivity.
    + repeat constructor; try discriminate;
        simpl; intuition discriminate.
Defined.

(** C3, as the claim has it, fails: [constructor(private a: string) {}] has
    one parameter with a visibility modifier and all its parameters on
    distinct lines, and a violation is emitted: the parameter starts on the
    constructor's own line. *)
Lemma C3_single_property_on_constructor_line :
  let source := ctorSingle_source in
  signatureOf ctorSingle_ctor = Some ctorSingle_signature /\
  parametersOf ctorSingle_signature = [ctorSingle_a] /\
  length (filter declaresProperty (parametersOf ctorSingle_signature)) <= 1 /\
  NoDup (map (startLine source) (parametersOf ctorSingle_signature)) /\
  visitConstructorDeclaration spacesWalker source ctorSingle_ctor
  = Ok [constructorFailure spacesWalker source ctorSingle_ctor ctorSingle_signature] /\
  visitConstructorDeclaration spacesWalker source ctorSingle_ctor <> Ok [].
Proof.
  cbv zeta. repeat split; try (vm_compute; reflexivity).
  - change (parametersOf ctorSingle_signature) with [ctorSingle_a].
    repeat constructor. intros [].
  - vm_compute. discriminate.
Qed.

(** C3 (amended). For every constructor with zero or one parameter carrying
    a visibility modifier, where all parameters are on distinct lines and
    the first parameter, if it carries a visibility modifier, does not start
    on the line the constructor starts on, no violation is emitted. The
    trigger, exactly: some parameter at or after the first property
    parameter starts on the line of the parameter before it, or, for the
    first parameter, on the line of the constructor. *)
Theorem C3_distinct_lines_no_violation (args : list RuleArgument) (w : Walker)
        (sf : SourceFile) (node signature : Node) :
  newWalker args = Ok w ->
  signatureOf node = Some signature ->
  let parameters := parametersOf signature in
  (length (filter declaresProperty parameters) <= 1 ->
   NoDup (map (startLine sf) parameters) ->
   (forall p rest, parameters = p :: rest -> declaresProperty p = true ->
                   startLine sf p <> startLine sf node) ->
   visitConstructorDeclaration w sf node = Ok []) /\
  ((exists before p after,
       parameters = before ++ p :: after /\
       existsb declaresProperty (before ++ [p]) = true /\
       startLine sf p = last (map (startLine sf) before) (startLine sf node)) ->
   visitConstructorDeclaration w sf node = Ok [constructorFailure w sf node signature]) /\
  (~ (exists before p after,
         parameters = before ++ p :: after /\
         existsb declaresProperty (before ++ [p]) = true /\
         startLine sf p = last (map (startLine sf) before) (startLine sf node)) ->
   visitConstructorDeclaration w sf node = Ok []).
Proof.
  intros Hw Hsig parameters.
  rewrite (@visitConstructorDeclaration_unfold args w sf node signature Hw Hsig).
  fold parameters.
  pose proof (scanParameters_true_iff sf parameters false (startLine sf node)) as Hiff.
  cbn [orb] in Hiff.
  split; [| split].
  - intros _ Hnodup Hfirst.
    destruct parameters as [| p rest] eqn:E; [reflexivity |].
    destruct (declaresProperty p) eqn:Hp.
    + rewrite scanParameters_neighboursDiffer; [reflexivity |].
      cbn [map] in *. split.
      * intros Heq. apply (Hfirst p rest eq_refl Hp). now symmetry.
      * apply NoDup_neighboursDiffer. exact Hnodup.
    + rewrite scanParameters_plain by exact Hp.
      rewrite scanParameters_neighboursDiffer; [reflexivity |].
      apply NoDup_neighboursDiffer. exact Hnodup.
  - intros H. apply Hiff in H. rewrite H. reflexivity.
  - intros H.
    destruct (scanParameters sf parameters false (startLine sf node)) eqn:S;
      [| reflexivity].
    elim H. apply Hiff. reflexivity.
Qed.

Lemma C3_distinct_lines_no_violation_witness :
  visitConstructorDeclaration spacesWalker ctorLines_source ctorLines_ctor = Ok [].
Proof.
  refine (proj1 (@C3_distinct_lines_no_violation [] spacesWalker ctorLines_source
                   ctorLines_ctor ctorLines_signature eq_refl eq_refl) _ _ _).
  - vm_compute. lia.
  - change (map (startLine ctorLines_source) (parametersOf ctorLines_signature))
      with [2; 3].
    repeat constructor; simpl; intuition discriminate.
  - intros p rest E Hp.
    change (parametersOf ctorLines_signature)
      with [ctorLines_a; ctorLines_b] in E.
    injection E as <- <-. vm_compute in Hp. discriminate.
Defined.

(** The output for a text starts with the first character of the text. *)
Lemma replace_first_kept (ind : text) (c : ascii) (s : text) :
  exists rest, Js.replaceCommaSpace (comma :: nl :: ind) (c :: s) = c :: rest.
Proof.
  destruct s as [| c2 tl2]; [now exists [] |].
  rewrite replace_unfold.
  destruct (Ascii.eqb_spec c comma) as [-> | _]; cbn [andb].
  - destruct (Ascii.eqb c2 space && _); eexists; reflexivity.
  - eexists; reflexivity.
Qed.

(** C9. In the text of the constructor fix, every comma of the
    parameter-list text that is followed by a space and then by a character
    other than a line feed is replaced, with the space, by a comma, a line
    feed and count+1 indent units, wherever it stands in the list (inside a
    type argument or a default value as well); a comma followed by a
    character other than a space is followed by that character still, as is
    a comma at the end of the list by the closing line feed; comma, space,
    line feed is left as it is, and so are a comma and a space at the very
    end of the list, which the closing line feed follows. *)
Theorem C9_comma_space_anywhere (args : list RuleArgument) (w : Walker)
        (sf : SourceFile) (node signature : Node) (failure : RuleFailure) :
  newWalker args = Ok w ->
  signatureOf node = Some signature ->
  visitConstructorDeclaration w sf node = Ok [failure] ->
  let count := getIndentCount w sf node 0 in
  let deeper := indentation w (count + 1) in
  let level := indentation w count in
  let replace := Js.replaceCommaSpace (comma :: nl :: deeper) in
  let fixText := replText (failFix failure) in
  (forall a c b,
      getText sf signature = a ++ comma :: space :: c :: b -> c <> nl ->
      fixText = replace (nl :: deeper ++ a) ++ (comma :: nl :: deeper)
                  ++ replace (c :: b ++ nl :: level)) /\
  (forall a c b,
      getText sf signature = a ++ comma :: c :: b -> c <> space ->
      exists rest, fixText = replace (nl :: deeper ++ a) ++ comma :: c :: rest) /\
  (forall a,
      getText sf signature = a ++ [comma] ->
      fixText = replace (nl :: deeper ++ a) ++ comma :: nl :: level) /\
  (forall a b,
      getText sf signature = a ++ comma :: space :: nl :: b ->
      fixText = replace (nl :: deeper ++ a) ++ comma :: space :: nl
                  :: replace (b ++ nl :: level)) /\
  (forall a,
      getText sf signature = a ++ [comma; space] ->
      fixText = replace (nl :: deeper ++ a) ++ comma :: space :: nl :: level).
Proof.
  intros Hw Hsig Hvisit count deeper level replace fixText.
  rewrite (@visitConstructorDeclaration_unfold args w sf node signature Hw Hsig)
    in Hvisit.
  destruct (scanParameters sf (parametersOf signature) false (startLine sf node));
    [| discriminate].
  injection Hvisit as <-.
  assert (Hfix : forall listText,
             getText sf signature = listText ->
             fixText = replace (nl :: deeper ++ listText ++ nl :: level)).
  { intros listText <-. reflexivity. }
  assert (Hlevel : replace (nl :: level) = nl :: level).
  { unfold replace. rewrite <- (app_nil_r (nl :: level)) at 1.
    rewrite replace_no_comma; [now rewrite app_nil_r |].
    intros [E | Hin]; [discriminate |].
    exact (@indentation_no_comma args w count Hw Hin). }
  repeat split.
  - intros a c b Htext Hc. rewrite (Hfix _ Htext).
    replace (nl :: deeper ++ (a ++ comma :: space :: c :: b) ++ nl :: level)
      with ((nl :: deeper ++ a) ++ comma :: space :: (c :: b ++ nl :: level))
      by (cbn [app]; now rewrite <- !app_assoc).
    unfold replace. rewrite replace_occurrence; [reflexivity | exact Hc].
  - intros a c b Htext Hc. rewrite (Hfix _ Htext).
    replace (nl :: deeper ++ (a ++ comma :: c :: b) ++ nl :: level)
      with ((nl :: deeper ++ a) ++ comma :: (c :: b ++ nl :: level))
      by (cbn [app]; now rewrite <- !app_assoc).
    unfold replace. rewrite replace_comma_without_space by exact Hc.
    destruct (replace_first_kept deeper c (b ++ nl :: level)) as [rest ->].
    now exists rest.
  - intros a Htext. rewrite (Hfix _ Htext).
    replace (nl :: deeper ++ (a ++ [comma]) ++ nl :: level)
      with ((nl :: deeper ++ a) ++ comma :: (nl :: level))
      by (cbn [app]; now rewrite <- !app_assoc).
    unfold replace. rewrite replace_comma_without_space by discriminate.
    fold replace. now rewrite Hlevel.
  - intros a b Htext. rewrite (Hfix _ Htext).
    replace (nl :: deeper ++ (a ++ comma :: space :: nl :: b) ++ nl :: level)
      with ((nl :: deeper ++ a) ++ comma :: space :: nl :: (b ++ nl :: level))
      by (cbn [app]; now rewrite <- !app_assoc).
    unfold replace. rewrite replace_occurrence_before_line_feed. reflexivity.
  - intros a Htext. rewrite (Hfix _ Htext).
    replace (nl :: deeper ++ (a ++ [comma; space]) ++ nl :: level)
      with ((nl :: deeper ++ a) ++ comma :: space :: nl :: level)
      by (cbn [app]; now rewrite <- !app_assoc).
    unfold replace. rewrite replace_occurrence_before_line_feed.
    do 4 f_equal.
    rewrite <- (app_nil_r level) at 1.
    rewrite replace_no_comma; [now rewrite app_nil_r |].
    apply (@indentation_no_comma args w count Hw).
Qed.

Lemma C9_comma_space_anywhere_witness :
  replText (failFix (constructorFailure spacesWalker ctorGeneric_source
                       ctorGeneric_ctor ctorGeneric_signature))
  = [nl] ++ str "        private m: Map<string," ++ [nl] ++ str "        number>"
      ++ [nl] ++ str "    ".
Proof.
  pose proof (@C9_comma_space_anywhere [] spacesWalker ctorGeneric_source
                ctorGeneric_ctor ctorGeneric_signature
                (constructorFailure spacesWalker ctorGeneric_source
                   ctorGeneric_ctor ctorGeneric_signature)
                eq_refl eq_refl eq_refl) as H.
  cbv zeta in H. destruct H as (H & _).
  rewrite (H (str "private m: Map<string") "n"%char (str "umber>")).
  - vm_compute. reflexivity.
  - vm_compute. reflexivity.
  - discriminate.
Defined.

(** ** Running an inspector again on the fixed text (C7) *)

(** The text the fix of a keyword leaves: a line feed where the replaced
    character was. *)
Lemma applyFix_control (source : text) (at_start : nat) (level : text) :
  at_start < length source ->
  exists before after,
    applyFix source (mkReplacement at_start 1 ([nl] ++ level))
    = before ++ nl :: after /\ length before = at_start.
Proof.
  intros H. exists (firstn at_start source), (level ++ skipn (at_start + 1) source).
  split; [reflexivity |].
  rewrite length_firstn. lia.
Qed.

(** After the fix, the keyword starts on a later line than the end of the
    node before it. *)
Lemma sameLineCheck_after_fix (w : Walker) (sf : SourceFile)
      (previousNode node previousNode' node' : Node) (level : text) :
  getEnd previousNode <= getFullStart node ->
  getFullStart node < getStart node ->
  getFullStart node < length (fileText sf) ->
  getEnd previousNode' = getEnd previousNode ->
  getStart node' + 1 = getStart node + length ([nl] ++ level) ->
  sameLineCheck w
    (fixedSource sf (mkReplacement (getFullStart node) 1 ([nl] ++ level)))
    previousNode' node'
  = Ok [].
Proof.
  intros Hend Hstart Hlen Hprev Hnode.
  destruct (@applyFix_control (fileText sf) (getFullStart node) level Hlen)
    as (before & after & Htext & Hbefore).
  unfold sameLineCheck.
  pose proof (@lineOf_across_line_feed
                (fixedSource sf (mkReplacement (getFullStart node) 1 ([nl] ++ level)))
                before after (getEnd previousNode') (getStart node') Htext) as Hlt.
  cbn [length app] in Hnode.
  destruct (Nat.eqb_spec
              (lineOf (fixedSource sf (mkReplacement (getFullStart node) 1 ([nl] ++ level)))
                 (getEnd previousNode'))
              (lineOf (fixedSource sf (mkReplacement (getFullStart node) 1 ([nl] ++ level)))
                 (getStart node'))) as [E | _]; [| reflexivity].
  specialize (Hlt ltac:(lia) ltac:(lia)). lia.
Qed.

(** What a reported keyword failure is. *)
Lemma sameLineCheck_reported (w : Walker) (sf : SourceFile)
      (previousNode node : Node) (failure : RuleFailure) :
  sameLineCheck w sf previousNode node = Ok [failure] ->
  failure = controlFailure w sf node.
Proof.
  unfold sameLineCheck. intros H.
  destruct (_ =? _); [| discriminate].
  destruct (_ <? _)%Z; [discriminate |].
  now injection H as <-.
Qed.

(** Parameters that start where the texts [ps] land in the fixed text are
    each on a later line than the one before. *)
Lemma scanParameters_landing (deeper : text) (sf' : SourceFile) (ps : list text) :
  forall (parameters : list Node) (before after : text)
         (hasProperties : bool) (previousLine q : nat),
    fileText sf'
    = before ++ nl :: deeper ++ join (comma :: nl :: deeper) ps ++ after ->
    map getStart parameters
    = landing (length before + 1 + length deeper) (2 + length deeper) ps ->
    q <= length before ->
    previousLine = lineOf sf' q ->
    scanParameters sf' parameters hasProperties previousLine = false.
Proof.
  induction ps as [| p rest IH];
    intros parameters before after hp prev q Htext Hmap Hq Hprev.
  - apply map_eq_nil in Hmap. subst parameters. reflexivity.
  - destruct parameters as [| x parameters]; [discriminate |].
    cbn [map landing] in Hmap. injection Hmap as Hx Hrest.
    cbn [scanParameters].
    change (line (getStartPosition sf' x)) with (lineOf sf' (getStart x)).
    pose proof (@lineOf_across_line_feed sf' before _ q (getStart x) Htext Hq
                  ltac:(lia)) as Hlt.
    destruct (Nat.eqb_spec (lineOf sf' (getStart x)) prev) as [E | _]; [lia |].
    rewrite andb_false_r.
    destruct rest as [| p2 rest].
    + apply map_eq_nil in Hrest. subst parameters. reflexivity.
    + apply (IH parameters (before ++ nl :: deeper ++ p ++ [comma]) after
               _ _ (getStart x)).
      * rewrite Htext.
        change (join (comma :: nl :: deeper) (p :: p2 :: rest))
          with (p ++ (comma :: nl :: deeper)
                  ++ join (comma :: nl :: deeper) (p2 :: rest)).
        repeat (rewrite <- app_assoc || rewrite <- app_comm_cons).
        reflexivity.
      * rewrite Hrest. f_equal.
        rewrite !length_app. cbn [length]. rewrite !length_app. cbn [length]. lia.
      * rewrite !length_app. cbn [length]. rewrite !length_app. cbn [length]. lia.
      * reflexivity.
Qed.

(** C7 (the code departs from it). The claim: applying a fix and running the
    inspector again on the fixed text reports nothing more for the
    construct. The fix for [constructor(a,private b) {}] only wraps the
    parameter list (no space follows the comma): both parameters are on one
    line of the fixed text and the inspector reports the constructor
    again. *)
Lemma C7_constructor_fix_not_idempotent :
  let w := spacesWalker in
  let fixed := ctorTightFixed_source in
  exists failure,
    visitConstructorDeclaration w ctorTight_source ctorTight_ctor = Ok [failure] /\
    applyFix (fileText ctorTight_source) (failFix failure) = fileText fixed /\
    getText fixed ctorTightFixed_ctor
    = str "constructor(" ++ [nl] ++ str "    a,private b" ++ [nl] ++ str ") {}" /\
    getText fixed ctorTightFixed_signature = str "a,private b" /\
    getText fixed ctorTightFixed_a = str "a" /\
    getText fixed ctorTightFixed_b = str "private b" /\
    signatureOf ctorTightFixed_ctor = Some ctorTightFixed_signature /\
    parametersOf ctorTightFixed_signature = [ctorTightFixed_a; ctorTightFixed_b] /\
    visitConstructorDeclaration w fixed ctorTightFixed_ctor
    = Ok [constructorFailure w fixed ctorTightFixed_ctor ctorTightFixed_signature] /\
    emitted (visitConstructorDeclaration w fixed ctorTightFixed_ctor) <> [].
Proof.
  cbv zeta. eexists. split; [vm_compute; reflexivity |].
  repeat split; try (vm_compute; reflexivity).
  vm_compute. discriminate.
Qed.

(** Where the fix does settle the construct. Run again on the fixed text,
    with the nodes where the fix leaves their text, an inspector reports
    nothing:
    - for a catch clause, finally keyword or else keyword that was reported
      and has at least one character of trivia before it (the one the fix
      replaces);
    - for a constructor that was reported and whose parameters hold no comma
      and are separated by a comma and a space. *)
Lemma fix_settles_when_separated (args : list RuleArgument) (w : Walker) (sf : SourceFile) :
  newWalker args = Ok w ->
  (forall tryStatement node previousNode failure,
      getPreviousNode (getChildren (tryNode tryStatement)) node
      = Ok (Some previousNode) ->
      checkTryStatement w sf tryStatement node = Ok [failure] ->
      getEnd previousNode <= getFullStart node ->
      getFullStart node < getStart node ->
      getFullStart node < length (fileText sf) ->
      forall tryStatement' node' previousNode',
        getPreviousNode (getChildren (tryNode tryStatement')) node'
        = Ok (Some previousNode') ->
        getEnd previousNode' = getEnd previousNode ->
        getStart node' + 1 = getStart node + length (replText (failFix failure)) ->
        checkTryStatement w (fixedSource sf (failFix failure)) tryStatement' node'
        = Ok []) /\
  (forall ifStatement elseKeyword previousNode failure,
      hd_error (filter (isKind ElseKeyword) (getChildren ifStatement))
      = Some elseKeyword ->
      at_ (getChildren ifStatement)
          (indexOf (getChildren ifStatement) elseKeyword - 1)%Z
      = Some previousNode ->
      visitIfStatement w sf ifStatement = Ok [failure] ->
      getEnd previousNode <= getFullStart elseKeyword ->
      getFullStart elseKeyword < getStart elseKeyword ->
      getFullStart elseKeyword < length (fileText sf) ->
      forall ifStatement' elseKeyword' previousNode',
        hd_error (filter (isKind ElseKeyword) (getChildren ifStatement'))
        = Some elseKeyword' ->
        at_ (getChildren ifStatement')
            (indexOf (getChildren ifStatement') elseKeyword' - 1)%Z
        = Some previousNode' ->
        getEnd previousNode' = getEnd previousNode ->
        getStart elseKeyword' + 1
        = getStart elseKeyword + length (replText (failFix failure)) ->
        visitIfStatement w (fixedSource sf (failFix failure)) ifStatement' = Ok []) /\
  (forall node signature failure ps,
      signatureOf node = Some signature ->
      visitConstructorDeclaration w sf node = Ok [failure] ->
      getText sf signature = join [comma; space] ps ->
      Forall plainParameter ps ->
      getStart node <= getStart signature ->
      getStart signature <= length (fileText sf) ->
      forall node' signature',
        signatureOf node' = Some signature' ->
        getStart node' = getStart node ->
        map getStart (parametersOf signature')
        = (let deeper := indentation w (getIndentCount w sf node 0 + 1) in
           landing (getStart signature + 1 + length deeper) (2 + length deeper) ps) ->
        visitConstructorDeclaration w (fixedSource sf (failFix failure)) node'
        = Ok []).
Proof.
  intros Hw. split; [| split].
  - intros tryStatement node previousNode failure Hprev Hcheck Hend Hstart Hlen
           tryStatement' node' previousNode' Hprev' Hend' Hstart'.
    rewrite (checkTryStatement_unfold w sf _ _ Hprev) in Hcheck.
    apply sameLineCheck_reported in Hcheck. subst failure.
    rewrite (checkTryStatement_unfold w _ _ _ Hprev').
    apply (@sameLineCheck_after_fix w sf previousNode node); assumption.
  - intros ifStatement elseKeyword previousNode failure He Hprev Hvisit Hend Hstart
           Hlen ifStatement' elseKeyword' previousNode' He' Hprev' Hend' Hstart'.
    rewrite (visitIfStatement_unfold w sf _ He Hprev) in Hvisit.
    destruct (existsb (isKind Block) (getChildren ifStatement)); [| discriminate].
    apply sameLineCheck_reported in Hvisit. subst failure.
    rewrite (visitIfStatement_unfold w _ _ He' Hprev').
    destruct (existsb (isKind Block) (getChildren ifStatement')); [| reflexivity].
    apply (@sameLineCheck_after_fix w sf previousNode elseKeyword); assumption.
  - intros node signature failure ps Hsig Hvisit Htext Hplain Hnode Hlen
           node' signature' Hsig' Hnode' Hmap.
    rewrite (@visitConstructorDeclaration_unfold args w sf node signature Hw Hsig)
      in Hvisit.
    destruct (scanParameters sf (parametersOf signature) false (startLine sf node));
      [| discriminate].
    injection Hvisit as <-.
    rewrite (@visitConstructorDeclaration_unfold args w _ node' signature' Hw Hsig').
    cbv zeta in Hmap.
    set (deeper := indentation w (getIndentCount w sf node 0 + 1)) in *.
    set (level := indentation w (getIndentCount w sf node 0)).
    rewrite (@scanParameters_landing deeper _ ps (parametersOf signature')
               (firstn (getStart signature) (fileText sf))
               (nl :: level
                  ++ skipn (getStart signature + getWidth signature) (fileText sf))
               false _ (getStart node')); [reflexivity | | | | reflexivity].
    + unfold fixedSource, applyFix, constructorFailure.
      cbn [fileText failFix addFailureAtNode replStart replLength replText].
      unfold multilineText. fold deeper. fold level. rewrite Htext.
      change ([comma; nl] ++ deeper) with (comma :: nl :: deeper).
      rewrite multiline_layout;
        [| apply (@indentation_no_comma args w _ Hw)
         | apply (@indentation_no_comma args w _ Hw) | exact Hplain].
      repeat (rewrite <- app_assoc || rewrite <- app_comm_cons).
      reflexivity.
    + rewrite Hmap, length_firstn. do 2 f_equal. lia.
    + rewrite length_firstn. lia.
Qed.

Lemma fix_settles_when_separated_example :
  (let failure := controlFailure spacesWalker tryLines_source tryLines_catch in
   fixedSource tryLines_source (failFix failure) = tryLinesFixed_source /\
   checkTryStatement spacesWalker (fixedSource tryLines_source (failFix failure))
     (mkTryStatement tryLinesFixed_statement (Some tryLinesFixed_catch))
     tryLinesFixed_catch
   = Ok []) /\
  (let failure := constructorFailure spacesWalker ctorSpaced_source
                    ctorSpaced_ctor ctorSpaced_signature in
   fixedSource ctorSpaced_source (failFix failure) = ctorLines_source /\
   visitConstructorDeclaration spacesWalker
     (fixedSource ctorSpaced_source (failFix failure)) ctorLines_ctor
   = Ok []).
Proof.
  pose proof (@fix_settles_when_separated [] spacesWalker tryLines_source eq_refl) as [Htry _].
  pose proof (@fix_settles_when_separated [] spacesWalker ctorSpaced_source eq_refl)
    as [_ [_ Hctor]].
  cbv zeta. split; split.
  - vm_compute. reflexivity.
  - refine (Htry (mkTryStatement tryLines_statement (Some tryLines_catch))
              tryLines_catch tryLines_block
              (controlFailure spacesWalker tryLines_source tryLines_catch)
              _ _ _ _ _
              (mkTryStatement tryLinesFixed_statement (Some tryLinesFixed_catch))
              tryLinesFixed_catch tryLinesFixed_block _ _ _).
    + vm_compute. reflexivity.
    + vm_compute. reflexivity.
    + vm_compute. lia.
    + vm_compute. lia.
    + vm_compute. lia.
    + vm_compute. reflexivity.
    + reflexivity.
    + vm_compute. reflexivity.
  - vm_compute. reflexivity.
  - refine (Hctor ctorSpaced_ctor ctorSpaced_signature
              (constructorFailure spacesWalker ctorSpaced_source
                 ctorSpaced_ctor ctorSpaced_signature)
              [str "a: number"; str "private b: string"]
              eq_refl _ _ _ _ _ ctorLines_ctor ctorLines_signature _ _ _).
    + vm_compute. reflexivity.
    + vm_compute. reflexivity.
    + repeat constructor; try discriminate; simpl; intuition discriminate.
    + vm_compute. lia.
    + vm_compute. lia.
    + reflexivity.
    + reflexivity.
    + vm_compute. reflexivity.
Defined.

(** * Further properties of the walker *)

(** ** The search for the previous node *)

Lemma previousPosition_nearest (children : list Node) (n : nat) :
  n <= length children ->
  (previousPosition children n = Ok (-1)%Z /\
   forall i c, i < n -> nth_error children i = Some c ->
               isBlockOrCatchClause c = false) \/
  (exists i c, i < n /\ nth_error children i = Some c /\
               isBlockOrCatchClause c = true /\
               previousPosition children n = Ok (Z.of_nat i) /\
               forall j d, i < j < n -> nth_error children j = Some d ->
                           isBlockOrCatchClause d = false).
Proof.
  induction n as [| n IH]; intros Hn.
  - left. split; [reflexivity | intros; lia].
  - cbn [previousPosition].
    destruct (nth_error children n) as [c |] eqn:E.
    2: { apply nth_error_None in E. lia. }
    destruct (isBlockOrCatchClause c) eqn:B.
    + right. exists n, c. repeat split; auto. intros; lia.
    + destruct (IH ltac:(lia)) as [[Hp Hall] | (i & c' & Hi & Hc & Hb & Hp & Hbetween)].
      * left. split; [exact Hp |].
        intros i c' Hi Hc. destruct (Nat.eq_dec i n) as [-> | Hne];
          [congruence | apply (Hall i c'); [lia | exact Hc]].
      * right. exists i, c'. repeat split; auto.
        intros j d Hj Hd. destruct (Nat.eq_dec j n) as [-> | Hne];
          [congruence | apply (Hbetween j d); [lia | exact Hd]].
Qed.

(** X1. [getPreviousNode] never raises. It returns the nearest child before
    the node (before its first occurrence in the array) that is a block or a
    catch clause: no child between the two is one; and [undefined] exactly
    when no child before the node is one. *)
Theorem getPreviousNode_nearest (children : list Node) (node : Node) :
  exists result,
    getPreviousNode children node = Ok result /\
    match result with
    | Some c =>
        exists i, (Z.of_nat i < indexOf children node)%Z /\
                  nth_error children i = Some c /\
                  isBlockOrCatchClause c = true /\
                  forall j d, i < j -> (Z.of_nat j < indexOf children node)%Z ->
                              nth_error children j = Some d ->
                              isBlockOrCatchClause d = false
    | None =>
        forall i c, (Z.of_nat i < indexOf children node)%Z ->
                    nth_error children i = Some c ->
                    isBlockOrCatchClause c = false
    end.
Proof.
  unfold getPreviousNode.
  pose proof (indexOf_range children node) as Hr.
  replace (indexOf children node - 1 + 1)%Z with (indexOf children node) by lia.
  destruct (@previousPosition_nearest children (Z.to_nat (indexOf children node))
              ltac:(lia))
    as [[Hp Hall] | (i & c & Hi & Hc & Hb & Hp & Hbetween)];
    rewrite Hp; cbn [Js.bind].
  - exists None. split; [reflexivity |].
    intros i c Hi. apply Hall. lia.
  - exists (Some c). split.
    + unfold at_. destruct (Z.ltb_spec (Z.of_nat i) 0); [lia |].
      now rewrite Nat2Z.id, Hc.
    + exists i. repeat split; [lia | exact Hc | exact Hb |].
      intros j d Hij Hj. apply Hbetween. lia.
Qed.

(** ** When a keyword check raises *)

Lemma ceilDiv_negative_iff (a b : Z) :
  (0 < b)%Z -> ((Js.ceilDiv a b < 0)%Z <-> (a + b <= 0)%Z).
Proof.
  intros Hb. pose proof (ceilDiv_bounds a Hb). split; intros; nia.
Qed.

Lemma getIndentCount_negative_iff (args : list RuleArgument) (w : Walker)
      (sf : SourceFile) (node : Node) :
  newWalker args = Ok w ->
  let column := Z.of_nat (character (getStartPosition sf node)) in
  (getIndentCount w sf node 2 < 0)%Z <->
  (tabs w = true /\ (column < 2)%Z) \/
  (tabs w = false /\ (column + size w <= 2)%Z).
Proof.
  intros Hw column. unfold getIndentCount. fold column.
  apply newWalker_inv in Hw as [_ [[T _] | [T [S _]]]]; rewrite T.
  - split; [intros; left; split; [reflexivity | lia] |].
    intros [[_ H] | [H _]]; [lia | discriminate].
  - rewrite (ceilDiv_negative_iff _ S). split.
    + intros H. right. split; [reflexivity | lia].
    + intros [[H _] | [_ H]]; [discriminate | lia].
Qed.

(** X2. The check of a catch clause or finally keyword raises a RangeError
    exactly when the previous node ends on the keyword's line and the indent
    count is negative: with tabs, the keyword in column 0 or 1; without,
    column + size at most 2. Without tabs and with a size of 3 or more it
    never does. *)
Theorem checkTryStatement_RangeError_iff (args : list RuleArgument) (w : Walker)
        (sf : SourceFile) (tryStatement : TryStatement) (node : Node) :
  newWalker args = Ok w ->
  let column := Z.of_nat (character (getStartPosition sf node)) in
  (checkTryStatement w sf tryStatement node = Throw RangeError <->
   exists previousNode,
     getPreviousNode (getChildren (tryNode tryStatement)) node
     = Ok (Some previousNode) /\
     lineOf sf (getEnd previousNode) = lineOf sf (getStart node) /\
     ((tabs w = true /\ (column < 2)%Z) \/
      (tabs w = false /\ (column + size w <= 2)%Z))) /\
  (tabs w = false -> (3 <= size w)%Z ->
   checkTryStatement w sf tryStatement node <> Throw RangeError).
Proof.
  intros Hw column.
  pose proof (@getIndentCount_negative_iff args w sf node Hw) as Hneg.
  cbv zeta in Hneg. fold column in Hneg.
  assert (Hiff :
            checkTryStatement w sf tryStatement node = Throw RangeError <->
            exists previousNode,
              getPreviousNode (getChildren (tryNode tryStatement)) node
              = Ok (Some previousNode) /\
              lineOf sf (getEnd previousNode) = lineOf sf (getStart node) /\
              ((tabs w = true /\ (column < 2)%Z) \/
               (tabs w = false /\ (column + size w <= 2)%Z))).
  { destruct (getPreviousNode_cases (getChildren (tryNode tryStatement)) node)
      as [[Hnone _] | (i & c & _ & _ & _ & Hsome)].
    - rewrite (checkTryStatement_absent w sf _ _ Hnone). split; [discriminate |].
      intros (p & Hp & _). congruence.
    - rewrite (checkTryStatement_unfold w sf _ _ Hsome). unfold sameLineCheck.
      destruct (Nat.eqb_spec (lineOf sf (getEnd c)) (lineOf sf (getStart node)))
        as [E | E].
      + destruct (Z.ltb_spec (getIndentCount w sf node 2) 0) as [L | L].
        * split; [| reflexivity]. intros _. exists c.
          split; [exact Hsome |]. split; [exact E |]. apply Hneg. exact L.
        * split; [discriminate |]. intros (p & _ & _ & H).
          apply Hneg in H. lia.
      + split; [discriminate |]. intros (p & Hp & Hl & _).
        rewrite Hsome in Hp. injection Hp as <-. contradiction. }
  split; [exact Hiff |].
  intros T S H. apply Hiff in H as (p & _ & _ & [[T' _] | [_ H]]);
    [congruence | unfold column in H; lia].
Qed.

Lemma checkTryStatement_RangeError_iff_witness :
  checkTryStatement spacesWalker tryTight_source
    (mkTryStatement tryTight_statement (Some tryTight_catch)) tryTight_catch
  <> Throw RangeError.
Proof.
  apply (proj2 (@checkTryStatement_RangeError_iff [] spacesWalker tryTight_source
                  (mkTryStatement tryTight_statement (Some tryTight_catch))
                  tryTight_catch eq_refl)).
  - reflexivity.
  - simpl. lia.
Defined.

(** ** The failures of the keyword inspectors *)

Lemma indent_chars (args : list RuleArgument) (w : Walker) :
  newWalker args = Ok w ->
  Forall indentChar (indent w) /\
  length (indent w) = if tabs w then 1 else Z.to_nat (size w).
Proof.
  intros Hw. apply newWalker_inv in Hw as [_ [[T E] | [T [_ E]]]];
    rewrite E, T.
  - split; [| reflexivity]. repeat constructor.
  - split; [| apply repeat_length].
    apply Forall_forall. intros c Hc. apply repeat_spec in Hc. now right.
Qed.

Lemma indentation_chars (args : list RuleArgument) (w : Walker) (k : Z) :
  newWalker args = Ok w ->
  Forall indentChar (indentation w k) /\
  length (indentation w k) = Z.to_nat k * length (indent w).
Proof.
  intros Hw. destruct (@indent_chars args w Hw) as [Hchars _]. unfold indentation.
  induction (Z.to_nat k) as [| n [IHc IHl]]; simpl.
  - split; [constructor | reflexivity].
  - split; [apply Forall_app; auto | rewrite length_app; lia].
Qed.

Lemma sameLineCheck_shape (args : list RuleArgument) (w : Walker)
      (sf : SourceFile) (previousNode node : Node) (failure : RuleFailure) :
  newWalker args = Ok w ->
  In failure (emitted (sameLineCheck w sf previousNode node)) ->
  controlFailureShape w sf node failure.
Proof.
  intros Hw. unfold sameLineCheck.
  destruct (_ =? _); [| intros []].
  destruct (Z.ltb_spec (getIndentCount w sf node 2) 0) as [L | L]; [intros [] |].
  intros [<- | []]. unfold controlFailureShape.
  repeat split; try reflexivity; try exact L.
  exists (indentation w (getIndentCount w sf node 2)).
  split; [reflexivity |]. apply (@indentation_chars args w _ Hw).
Qed.

Lemma filter_head_In (f : Node -> bool) (l : list Node) (e : Node) :
  hd_error (filter f l) = Some e -> In e l /\ f e = true.
Proof.
  intros H. apply filter_In.
  destruct (filter f l) as [| x rest]; [discriminate |].
  injection H as ->. now left.
Qed.

Lemma indexOfFrom_found (node : Node) :
  forall (l : list Node) (i : Z),
    (exists c, In c l /\ uid c = uid node) -> indexOfFrom l node i <> (-1)%Z \/ (i < 0)%Z.
Proof.
  induction l as [| x l IH]; intros i (c & Hin & Hu); [contradiction |].
  simpl. destruct (Nat.eqb_spec (uid x) (uid node)) as [E | E].
  - destruct (Z_lt_dec i 0); [now right | left; lia].
  - destruct Hin as [-> | Hin]; [contradiction |].
    destruct (IH (i + 1)%Z (ex_intro _ c (conj Hin Hu))) as [H | H];
      [now left | right; lia].
Qed.

Lemma indexOf_found (l : list Node) (node : Node) :
  In node l -> (0 <= indexOf l node < Z.of_nat (length l))%Z.
Proof.
  intros Hin. pose proof (indexOf_range l node) as Hr.
  destruct (@indexOfFrom_found node l 0%Z (ex_intro _ node (conj Hin eq_refl)))
    as [H | H]; [| lia].
  unfold indexOf in *. lia.
Qed.

Lemma indexOf_zero_iff (l : list Node) (node : Node) :
  indexOf l node = 0%Z <-> exists c rest, l = c :: rest /\ uid c = uid node.
Proof.
  unfold indexOf. destruct l as [| x l]; simpl.
  - split; [discriminate | intros (c & rest & E & _); discriminate].
  - destruct (Nat.eqb_spec (uid x) (uid node)) as [E | E].
    + split; [intros _; now exists x, l | reflexivity].
    + split.
      * intros H. destruct (indexOfFrom_range node l 1) as [H' | H']; lia.
      * intros (c & rest & Ecr & Hu). injection Ecr as <- <-. contradiction.
Qed.

(** X3. Every failure the keyword inspectors report has one form: it is
    located at the keyword (the catch clause or finally keyword checked, the
    first else keyword of the if statement), carries the control-statement
    message, and its fix replaces exactly one character at the keyword's
    full start by a line feed followed by indent-unit characters only (tabs
    or spaces), as many units as the indent count, which is not negative. *)
Theorem control_failures_shape (args : list RuleArgument) (w : Walker)
        (sf : SourceFile) :
  newWalker args = Ok w ->
  (forall tryStatement node failure,
      In failure (emitted (checkTryStatement w sf tryStatement node)) ->
      controlFailureShape w sf node failure) /\
  (forall ifStatement failure,
      In failure (emitted (visitIfStatement w sf ifStatement)) ->
      exists elseKeyword,
        hd_error (filter (isKind ElseKeyword) (getChildren ifStatement))
        = Some elseKeyword /\
        controlFailureShape w sf elseKeyword failure).
Proof.
  intros Hw. split.
  - intros tryStatement node failure.
    destruct (getPreviousNode_cases (getChildren (tryNode tryStatement)) node)
      as [[Hnone _] | (i & c & _ & _ & _ & Hsome)].
    + rewrite (checkTryStatement_absent w sf _ _ Hnone). intros [].
    + rewrite (checkTryStatement_unfold w sf _ _ Hsome).
      apply (@sameLineCheck_shape args w sf c node failure Hw).
  - intros ifStatement failure.
    destruct (hd_error (filter (isKind ElseKeyword) (getChildren ifStatement)))
      as [e |] eqn:He.
    2: { unfold visitIfStatement. rewrite He. intros []. }
    destruct (at_ (getChildren ifStatement)
                (indexOf (getChildren ifStatement) e - 1)%Z) as [p |] eqn:Hp.
    + rewrite (visitIfStatement_unfold w sf _ He Hp).
      destruct (existsb _ _); [| intros []].
      intros Hin. exists e. split; [reflexivity |].
      apply (@sameLineCheck_shape args w sf p e failure Hw Hin).
    + unfold visitIfStatement. rewrite He, Hp. intros [].
Qed.

Lemma control_failures_shape_witness :
  controlFailureShape spacesWalker tryLines_source tryLines_catch
    (controlFailure spacesWalker tryLines_source tryLines_catch).
Proof.
  apply (proj1 (@control_failures_shape [] spacesWalker tryLines_source eq_refl)
           (mkTryStatement tryLines_statement (Some tryLines_catch))).
  vm_compute. now left.
Defined.

(** X5. The visit of an if statement raises a TypeError exactly when its
    first else keyword is its first child, so that nothing precedes it;
    whether a block is among the children does not matter, the line of the
    previous node being read first. *)
Theorem visitIfStatement_TypeError_iff (w : Walker) (sf : SourceFile)
        (ifStatement : Node) :
  visitIfStatement w sf ifStatement = Throw TypeError <->
  exists elseKeyword first rest,
    hd_error (filter (isKind ElseKeyword) (getChildren ifStatement))
    = Some elseKeyword /\
    getChildren ifStatement = first :: rest /\
    uid first = uid elseKeyword.
Proof.
  destruct (hd_error (filter (isKind ElseKeyword) (getChildren ifStatement)))
    as [e |] eqn:He.
  2: { unfold visitIfStatement. rewrite He. split; [discriminate |].
       intros (x & _ & _ & H & _). discriminate. }
  pose proof (proj1 (filter_head_In _ _ He)) as Hin.
  pose proof (indexOf_found _ _ Hin) as Hr.
  destruct (Z.eq_dec (indexOf (getChildren ifStatement) e) 0) as [Z0 | Z0].
  - split.
    + intros _. apply indexOf_zero_iff in Z0 as (c & rest & E & Hu).
      now exists e, c, rest.
    + intros _. unfold visitIfStatement. rewrite He, Z0. reflexivity.
  - split.
    + destruct (at_ (getChildren ifStatement)
                  (indexOf (getChildren ifStatement) e - 1)%Z) as [p |] eqn:Hp.
      * rewrite (visitIfStatement_unfold w sf _ He Hp). unfold sameLineCheck.
        destruct (existsb _ _); [| discriminate].
        destruct (_ =? _); [| discriminate].
        destruct (_ <? _)%Z; discriminate.
      * unfold at_ in Hp.
        destruct (Z.ltb_spec (indexOf (getChildren ifStatement) e - 1) 0); [lia |].
        apply nth_error_None in Hp. lia.
    + intros (x & c & rest & Hx & E & Hu). injection Hx as <-.
      elim Z0. apply indexOf_zero_iff. now exists c, rest.
Qed.

(** ** The failures of the constructor inspector *)

(** X7. A constructor none of whose parameters carries a visibility modifier
    is never reported, however its parameters share lines; nor is one
    without a list child. The walker's options play no part. *)
Theorem constructor_without_properties (w : Walker) (sf : SourceFile) (node : Node) :
  (signatureOf node = None \/
   exists signature,
     signatureOf node = Some signature /\
     existsb declaresProperty (parametersOf signature) = false) ->
  visitConstructorDeclaration w sf node = Ok [].
Proof.
  intros [Hnone | (signature & Hsig & Hplain)].
  - apply visitConstructorDeclaration_no_list. exact Hnone.
  - unfold visitConstructorDeclaration. unfold signatureOf in Hsig. rewrite Hsig.
    fold (parametersOf signature).
    now rewrite scanParameters_no_property.
Qed.

Lemma constructor_without_properties_witness :
  visitConstructorDeclaration spacesWalker ctorPlain_source ctorPlain_ctor = Ok [].
Proof.
  apply constructor_without_properties. right.
  exists ctorPlain_signature. split; reflexivity.
Defined.

Lemma filter_head_first (f : Node -> bool) (before : list Node) (m : Node)
      (rest : list Node) :
  existsb f before = false -> f m = true ->
  hd_error (filter f (before ++ m :: rest)) = Some m.
Proof.
  intros Hb Hm. induction before as [| x before IH]; simpl in *.
  - now rewrite Hm.
  - apply orb_false_iff in Hb as [Hx Hb]. rewrite Hx. apply IH. exact Hb.
Qed.

(** X8. The inspector looks for parameters in the first list child of the
    constructor only. When that list has no parameter among its children (the
    modifier list of a constructor with a modifier of its own), nothing is
    reported, whatever the children after it hold. *)
Theorem constructor_first_list_only (w : Walker) (sf : SourceFile) (node : Node)
        (before : list Node) (firstList : Node) (rest : list Node) :
  getChildren node = before ++ firstList :: rest ->
  existsb (isKind SyntaxList) before = false ->
  isKind SyntaxList firstList = true ->
  parametersOf firstList = [] ->
  signatureOf node = Some firstList /\
  visitConstructorDeclaration w sf node = Ok [].
Proof.
  intros Hchildren Hbefore Hlist Hparams.
  assert (Hsig : signatureOf node = Some firstList).
  { unfold signatureOf. rewrite Hchildren. now apply filter_head_first. }
  split; [exact Hsig |].
  apply constructor_without_properties. right.
  exists firstList. split; [exact Hsig |]. now rewrite Hparams.
Qed.

Lemma constructor_first_list_only_witness :
  (exists before p between q after,
      parametersOf ctorPrivate_signature = before ++ p :: between ++ q :: after /\
      declaresProperty p = false /\ declaresProperty q = true /\
      startLine ctorPrivate_source p = startLine ctorPrivate_source q) /\
  signatureOf ctorPrivate_ctor = Some ctorPrivate_modifiers /\
  visitConstructorDeclaration spacesWalker ctorPrivate_source ctorPrivate_ctor = Ok [].
Proof.
  split.
  - exists [], ctorPrivate_a, [], ctorPrivate_b, [].
    repeat split; vm_compute; reflexivity.
  - apply (@constructor_first_list_only spacesWalker ctorPrivate_source
             ctorPrivate_ctor [] ctorPrivate_modifiers
             (tl (getChildren ctorPrivate_ctor))); reflexivity.
Defined.


(** ** The replacement text of the constructor fix *)

Lemma replace_idempotent_bounded (ind : text) (n : nat) :
  ~ In comma ind ->
  forall s, length s <= n ->
    Js.replaceCommaSpace (comma :: nl :: ind)
      (Js.replaceCommaSpace (comma :: nl :: ind) s)
    = Js.replaceCommaSpace (comma :: nl :: ind) s.
Proof.
  intros Hind. induction n as [| n IH]; intros s Hlen.
  - destruct s; [reflexivity | simpl in Hlen; lia].
  - destruct s as [| c s]; [reflexivity |].
    destruct s as [| c2 tl2]; [reflexivity |].
    simpl in Hlen. rewrite (replace_unfold (comma :: nl :: ind) c c2 tl2).
    destruct (Ascii.eqb c comma && Ascii.eqb c2 space
              && negb (match tl2 with c3 :: _ => Ascii.eqb c3 nl | [] => false end))
      eqn:Hcond.
    + (* replaced: what is written holds no comma before a space *)
      change ((comma :: nl :: ind) ++ Js.replaceCommaSpace (comma :: nl :: ind) tl2)
        with (comma :: (nl :: ind) ++ Js.replaceCommaSpace (comma :: nl :: ind) tl2).
      rewrite replace_comma_kept by (simpl; discriminate).
      rewrite replace_no_comma
        by (intros [E | Hin]; [discriminate | contradiction]).
      rewrite IH by lia. reflexivity.
    + destruct (replace_first_kept ind c2 tl2) as [rest Hrest].
      rewrite Hrest.
      rewrite (replace_unfold (comma :: nl :: ind) c c2 rest).
      destruct (Ascii.eqb c comma && Ascii.eqb c2 space
                && negb (match rest with c3 :: _ => Ascii.eqb c3 nl | [] => false end))
        eqn:Hcond'.
      * (* impossible: the comma and space were left because of a line feed *)
        apply andb_true_iff in Hcond' as [Hcs Hnl].
        rewrite Hcs in Hcond. cbn [andb] in Hcond.
        apply andb_true_iff in Hcs as [_ Hspace].
        apply Ascii.eqb_eq in Hspace. subst c2.
        destruct tl2 as [| c3 tl3]; [discriminate |].
        apply negb_false_iff in Hcond. apply Ascii.eqb_eq in Hcond. subst c3.
        rewrite (replace_other _ (c := space)), (replace_other _ (c := nl)) in Hrest
          by discriminate.
        injection Hrest as <-. discriminate.
      * rewrite <- Hrest. rewrite IH by (simpl; lia). reflexivity.
Qed.

(** X10. The replacement of comma + space is idempotent: in its result no
    comma is followed by a space and then by something other than a line
    feed, so replacing again changes nothing (the indent unit holds no
    comma). *)
Theorem replaceCommaSpace_idempotent (ind s : text) :
  ~ In comma ind ->
  Js.replaceCommaSpace (comma :: nl :: ind)
    (Js.replaceCommaSpace (comma :: nl :: ind) s)
  = Js.replaceCommaSpace (comma :: nl :: ind) s.
Proof.
  intros Hind. apply (@replace_idempotent_bounded ind (length s) Hind). lia.
Qed.

Lemma replaceCommaSpace_idempotent_witness :
  Js.replaceCommaSpace (comma :: nl :: str "  ")
    (str "a," ++ [nl] ++ str "  b,c, " ++ [nl] ++ str "d")
  = str "a," ++ [nl] ++ str "  b,c, " ++ [nl] ++ str "d".
Proof.
  change (str "a," ++ [nl] ++ str "  b,c, " ++ [nl] ++ str "d")
    with (Js.replaceCommaSpace (comma :: nl :: str "  ")
            (str "a, b,c, " ++ [nl] ++ str "d")) at 2.
  change (str "a," ++ [nl] ++ str "  b,c, " ++ [nl] ++ str "d")
    with (Js.replaceCommaSpace (comma :: nl :: str "  ")
            (str "a, b,c, " ++ [nl] ++ str "d")) at 1.
  apply replaceCommaSpace_idempotent.
  simpl. intuition discriminate.
Defined.

Lemma replace_closing_kept (ind level : text) (n : nat) :
  ~ In comma level ->
  forall a, length a <= n ->
    exists body,
      Js.replaceCommaSpace (comma :: nl :: ind) (a ++ nl :: level)
      = body ++ nl :: level.
Proof.
  intros Hlevel.
  assert (Htail : Js.replaceCommaSpace (comma :: nl :: ind) (nl :: level)
                  = nl :: level).
  { rewrite <- (app_nil_r (nl :: level)) at 1.
    rewrite replace_no_comma; [now rewrite app_nil_r |].
    intros [E | Hin]; [discriminate | contradiction]. }
  induction n as [| n IH]; intros a Hlen.
  - destruct a; [| simpl in Hlen; lia]. exists []. exact Htail.
  - destruct a as [| c a]; [exists []; exact Htail |].
    destruct a as [| c2 a].
    + exists [c]. cbn [app].
      rewrite (replace_unfold (comma :: nl :: ind) c nl level).
      replace (Ascii.eqb nl space) with false by reflexivity.
      rewrite andb_false_r. cbn [andb]. now rewrite Htail.
    + simpl in Hlen. cbn [app].
      rewrite (replace_unfold (comma :: nl :: ind) c c2 (a ++ nl :: level)).
      destruct (Ascii.eqb c comma && Ascii.eqb c2 space && _).
      * destruct (IH a ltac:(lia)) as [body ->].
        exists ((comma :: nl :: ind) ++ body). now rewrite <- app_assoc.
      * destruct (IH (c2 :: a) ltac:(simpl; lia)) as [body Hbody].
        cbn [app] in Hbody. rewrite Hbody. now exists (c :: body).
Qed.

(** X11. Whatever the parameter list, the replacement text of a reported
    constructor starts with a line feed and count+1 indent units and ends
    with a line feed and count indent units (count the constructor's indent
    level, which is not negative): the list starts on a new line one level
    deeper and the closing parenthesis lands on a line of its own behind
    count indent units. *)
Theorem constructor_fix_frame (args : list RuleArgument) (w : Walker)
        (sf : SourceFile) (node : Node) (failure : RuleFailure) :
  newWalker args = Ok w ->
  In failure (emitted (visitConstructorDeclaration w sf node)) ->
  let count := getIndentCount w sf node 0 in
  let deeper := indentation w (count + 1) in
  let level := indentation w count in
  (0 <= count)%Z /\
  length deeper = length level + length (indent w) /\
  Forall indentChar deeper /\ Forall indentChar level /\
  exists body,
    replText (failFix failure) = nl :: deeper ++ body ++ nl :: level.
Proof.
  intros Hw Hin count deeper level.
  pose proof (@getIndentCount_nonneg args w sf node Hw) as Hcount.
  fold count in Hcount.
  destruct (@indentation_chars args w (count + 1) Hw) as [Hdc Hdl].
  destruct (@indentation_chars args w count Hw) as [Hlc Hll].
  fold deeper in Hdc, Hdl. fold level in Hlc, Hll.
  split; [exact Hcount |].
  split; [rewrite Hdl, Hll, Z2Nat.inj_add by lia; simpl; lia |].
  split; [exact Hdc |]. split; [exact Hlc |].
  destruct (signatureOf node) as [signature |] eqn:Hsig.
  2: { rewrite (visitConstructorDeclaration_no_list w sf node Hsig) in Hin.
       destruct Hin. }
  rewrite (@visitConstructorDeclaration_unfold args w sf node signature Hw Hsig)
    in Hin.
  destruct (scanParameters _ _ _ _); [| destruct Hin].
  destruct Hin as [<- | []].
  unfold constructorFailure. cbn [failFix addFailureAtNode replText].
  unfold multilineText. fold count. fold deeper. fold level.
  change ([comma; nl] ++ deeper) with (comma :: nl :: deeper).
  change ([nl] ++ deeper ++ getText sf signature ++ [nl] ++ level)
    with ((nl :: deeper) ++ getText sf signature ++ nl :: level).
  rewrite replace_no_comma.
  2: { intros [E | Hc]; [discriminate |].
       exact (@indentation_no_comma args w (count + 1) Hw Hc). }
  destruct (@replace_closing_kept deeper level (length (getText sf signature))
              (@indentation_no_comma args w count Hw)
              (getText sf signature) (le_n _)) as [body ->].
  now exists body.
Qed.

Lemma constructor_fix_frame_witness :
  exists body,
    replText (failFix (constructorFailure spacesWalker ctorGeneric_source
                         ctorGeneric_ctor ctorGeneric_signature))
    = nl :: str "        " ++ body ++ nl :: str "    ".
Proof.
  destruct (@constructor_fix_frame [] spacesWalker ctorGeneric_source
              ctorGeneric_ctor
              (constructorFailure spacesWalker ctorGeneric_source
                 ctorGeneric_ctor ctorGeneric_signature)
              eq_refl) as (_ & _ & _ & _ & body & Hbody).
  - vm_compute. now left.
  - exists body. exact Hbody.
Defined.

Lemma replace_without_comma_space (ind level : text) (s : text) :
  ~ In comma level ->
  hasCommaSpace s = false ->
  Js.replaceCommaSpace (comma :: nl :: ind) (s ++ nl :: level)
  = s ++ nl :: level.
Proof.
  intros Hlevel.
  assert (Htail : Js.replaceCommaSpace (comma :: nl :: ind) (nl :: level)
                  = nl :: level).
  { rewrite <- (app_nil_r (nl :: level)) at 1.
    rewrite replace_no_comma; [now rewrite app_nil_r |].
    intros [E | Hin]; [discriminate | contradiction]. }
  induction s as [| c s IH]; intros H; [exact Htail |].
  destruct s as [| c2 s].
  - cbn [app]. rewrite (replace_unfold (comma :: nl :: ind) c nl level).
    replace (Ascii.eqb nl space) with false by reflexivity.
    rewrite andb_false_r. cbn [andb]. now rewrite Htail.
  - cbn [hasCommaSpace] in H. apply orb_false_iff in H as [Hhere Hrest].
    cbn [app].
    rewrite (replace_unfold (comma :: nl :: ind) c c2 (s ++ nl :: level)).
    rewrite Hhere. cbn [andb]. f_equal. apply IH. exact Hrest.
Qed.

(** X12. When no comma of the parameter-list text is followed by a space,
    the replacement text of a reported constructor only wraps the list: a
    line feed, count+1 indent units, the list text unchanged, a line feed and
    count indent units. The parameters stay on the one line. *)
Theorem constructor_fix_wraps_only (args : list RuleArgument) (w : Walker)
        (sf : SourceFile) (node signature : Node) (failure : RuleFailure) :
  newWalker args = Ok w ->
  signatureOf node = Some signature ->
  visitConstructorDeclaration w sf node = Ok [failure] ->
  hasCommaSpace (getText sf signature) = false ->
  let count := getIndentCount w sf node 0 in
  replText (failFix failure)
  = nl :: indentation w (count + 1) ++ getText sf signature
       ++ nl :: indentation w count.
Proof.
  intros Hw Hsig Hvisit Hplain count.
  rewrite (@visitConstructorDeclaration_unfold args w sf node signature Hw Hsig)
    in Hvisit.
  destruct (scanParameters _ _ _ _); [| discriminate].
  injection Hvisit as <-.
  unfold constructorFailure. cbn [failFix addFailureAtNode replText].
  unfold multilineText. fold count.
  change ([comma; nl] ++ indentation w (count + 1))
    with (comma :: nl :: indentation w (count + 1)).
  change ([nl] ++ indentation w (count + 1) ++ getText sf signature
            ++ [nl] ++ indentation w count)
    with ((nl :: indentation w (count + 1)) ++ getText sf signature
            ++ nl :: indentation w count).
  rewrite replace_no_comma.
  2: { intros [E | Hc]; [discriminate |].
       exact (@indentation_no_comma args w (count + 1) Hw Hc). }
  rewrite replace_without_comma_space;
    [reflexivity | apply (@indentation_no_comma args w count Hw) | exact Hplain].
Qed.

Lemma constructor_fix_wraps_only_witness :
  replText (failFix (constructorFailure spacesWalker ctorTight_source
                       ctorTight_ctor ctorTight_signature))
  = nl :: str "    " ++ str "a,private b" ++ [nl].
Proof.
  apply (@constructor_fix_wraps_only [] spacesWalker ctorTight_source
           ctorTight_ctor ctorTight_signature
           (constructorFailure spacesWalker ctorTight_source
              ctorTight_ctor ctorTight_signature));
    reflexivity.
Defined.

(** ** The else keyword: when the visit raises a RangeError *)

(** The own check of an if statement raises a RangeError exactly when the
    statement has an else keyword with a child before it, a block among its
    children, the child before the else keyword ending on the keyword's
    line, and a negative indent count: with tabs, the keyword in column 0
    or 1; without, column + size at most 2. *)
Lemma visitIfStatement_own_RangeError_iff (args : list RuleArgument) (w : Walker)
        (sf : SourceFile) (ifStatement : Node) :
  newWalker args = Ok w ->
  (visitIfStatement w sf ifStatement = Throw RangeError <->
   exists elseKeyword previousNode,
     hd_error (filter (isKind ElseKeyword) (getChildren ifStatement))
     = Some elseKeyword /\
     at_ (getChildren ifStatement)
         (indexOf (getChildren ifStatement) elseKeyword - 1)%Z
     = Some previousNode /\
     existsb (isKind Block) (getChildren ifStatement) = true /\
     lineOf sf (getEnd previousNode) = lineOf sf (getStart elseKeyword) /\
     let column := Z.of_nat (character (getStartPosition sf elseKeyword)) in
     ((tabs w = true /\ (column < 2)%Z) \/
      (tabs w = false /\ (column + size w <= 2)%Z))).
Proof.
  intros Hw.
  destruct (hd_error (filter (isKind ElseKeyword) (getChildren ifStatement)))
    as [e |] eqn:He.
  2: { unfold visitIfStatement. rewrite He. split; [discriminate |].
       intros (x & _ & H & _). discriminate. }
  pose proof (@getIndentCount_negative_iff args w sf e Hw) as Hneg.
  cbv zeta in Hneg.
  destruct (at_ (getChildren ifStatement)
              (indexOf (getChildren ifStatement) e - 1)%Z) as [p |] eqn:Hp.
  2: { unfold visitIfStatement. rewrite He, Hp. split; [discriminate |].
       intros (x & q & Hx & Hq & _). injection Hx as <-. congruence. }
  rewrite (visitIfStatement_unfold w sf _ He Hp). unfold sameLineCheck.
  destruct (existsb (isKind Block) (getChildren ifStatement)).
  2: { split; [discriminate |]. intros (_ & _ & _ & _ & H & _). discriminate. }
  destruct (Nat.eqb_spec (lineOf sf (getEnd p)) (lineOf sf (getStart e))) as [E | E].
  - destruct (Z.ltb_spec (getIndentCount w sf e 2) 0) as [L | L].
    + split; [| reflexivity]. intros _. exists e, p.
      repeat split; try assumption. cbv zeta. apply Hneg. exact L.
    + split; [discriminate |].
      intros (x & q & Hx & _ & _ & _ & H). injection Hx as <-.
      cbv zeta in H. apply Hneg in H. lia.
  - split; [discriminate |].
    intros (x & q & Hx & Hq & _ & Hl & _). injection Hx as <-.
    rewrite Hp in Hq. injection Hq as <-. contradiction.
Qed.

(** X13. A visit of an if statement, nested visit included, raises a
    RangeError exactly when the nested visit raises one, or the nested visit
    returns and the statement has an else keyword with a child before it, a
    block among its children, that child ending on the keyword's line, and a
    negative indent count (with tabs: the keyword in column 0 or 1; without:
    column + size at most 2). *)
Theorem visitIfStatement_RangeError_iff (args : list RuleArgument) (w : Walker)
        (sf : SourceFile) (ifStatement : Node)
        (nested : outcome (list RuleFailure)) :
  newWalker args = Ok w ->
  (afterSuper nested (visitIfStatement w sf ifStatement) = Throw RangeError <->
   nested = Throw RangeError \/
   ((exists fromNested, nested = Ok fromNested) /\
    exists elseKeyword previousNode,
      hd_error (filter (isKind ElseKeyword) (getChildren ifStatement))
      = Some elseKeyword /\
      at_ (getChildren ifStatement)
          (indexOf (getChildren ifStatement) elseKeyword - 1)%Z
      = Some previousNode /\
      existsb (isKind Block) (getChildren ifStatement) = true /\
      lineOf sf (getEnd previousNode) = lineOf sf (getStart elseKeyword) /\
      let column := Z.of_nat (character (getStartPosition sf elseKeyword)) in
      ((tabs w = true /\ (column < 2)%Z) \/
       (tabs w = false /\ (column + size w <= 2)%Z)))).
Proof.
  intros Hw.
  pose proof (@visitIfStatement_own_RangeError_iff args w sf ifStatement Hw) as Hown.
  unfold afterSuper. destruct nested as [fromNested | e |]; cbn [Js.bind].
  - destruct (visitIfStatement w sf ifStatement) as [own | e |] eqn:Hvisit;
      cbn [Js.bind].
    + split; [discriminate |].
      intros [H | [_ H]]; [discriminate |]. apply Hown in H. discriminate.
    + split.
      * intros H. right. split; [now exists fromNested |].
        apply Hown. exact H.
      * intros [H | [_ H]]; [discriminate |]. apply Hown in H. exact H.
    + split; [discriminate |].
      intros [H | [_ H]]; [discriminate |]. apply Hown in H. discriminate.
  - split.
    + intros H. now left.
    + intros [H | [[fs H] _]]; [exact H | discriminate].
  - split; [discriminate |].
    intros [H | [[fs H] _]]; discriminate.
Qed.

Lemma visitIfStatement_RangeError_iff_witness :
  afterSuper (Ok []) (visitIfStatement tabsWalker ifTight_source ifTight_statement)
  = Throw RangeError.
Proof.
  apply (proj2 (@visitIfStatement_RangeError_iff [ArgString "tabs"] tabsWalker
                  ifTight_source ifTight_statement (Ok []) eq_refl)).
  right. split; [now exists [] |].
  exists ifTight_else, ifTight_consequent.
  repeat split; try reflexivity.
  cbv zeta. left. split; [reflexivity | vm_compute; reflexivity].
Defined.

(** ** A keyword on a later line *)

(** X14. When a line feed stands between the end of the previous node and
    the start of a catch clause or finally keyword, the check reports
    nothing and does not raise, whatever the walker's options: the indent
    count is not computed. *)
Theorem checkTryStatement_after_line_feed (w : Walker) (sf : SourceFile)
        (tryStatement : TryStatement) (node previousNode : Node) :
  getPreviousNode (getChildren (tryNode tryStatement)) node
  = Ok (Some previousNode) ->
  (exists i, getEnd previousNode <= i < getStart node /\
             nth_error (fileText sf) i = Some nl) ->
  checkTryStatement w sf tryStatement node = Ok [].
Proof.
  intros Hprev (i & Hi & Hnl).
  rewrite (checkTryStatement_unfold w sf _ _ Hprev).
  apply nth_error_split in Hnl as (a & b & Htext & Hlen).
  pose proof (@lineOf_across_line_feed sf a b (getEnd previousNode)
                (getStart node) Htext ltac:(lia) ltac:(lia)) as Hlt.
  unfold sameLineCheck.
  destruct (Nat.eqb_spec (lineOf sf (getEnd previousNode))
              (lineOf sf (getStart node))); [lia | reflexivity].
Qed.

Lemma checkTryStatement_after_line_feed_witness :
  checkTryStatement tabsWalker tryLinesFixed_source
    (mkTryStatement tryLinesFixed_statement (Some tryLinesFixed_catch))
    tryLinesFixed_catch
  = Ok [].
Proof.
  apply (@checkTryStatement_after_line_feed tabsWalker tryLinesFixed_source
           (mkTryStatement tryLinesFixed_statement (Some tryLinesFixed_catch))
           tryLinesFixed_catch tryLinesFixed_block).
  - reflexivity.
  - exists 18. split; [vm_compute; lia | reflexivity].
Defined.

(** ** The properties above on the examples *)

Lemma getPreviousNode_nearest_witness :
  exists result,
    getPreviousNode (getChildren tryFull_statement) tryFull_finally = Ok result /\
    result <> None.
Proof.
  destruct (getPreviousNode_nearest (getChildren tryFull_statement) tryFull_finally)
    as (result & Hresult & Hnearest).
  exists result. split; [exact Hresult |].
  intros ->. specialize (Hnearest 1 tryFull_block).
  assert (H : isBlockOrCatchClause tryFull_block = false)
    by (apply Hnearest; [vm_compute |]; reflexivity).
  discriminate.
Defined.

Lemma visitIfStatement_TypeError_iff_witness :
  visitIfStatement spacesWalker ifElseBare_source
    (mkNode 0 (OtherKind "IfStatement") 0 0 21 [ifElseBare_else])
  = Throw TypeError.
Proof.
  apply (proj2 (visitIfStatement_TypeError_iff spacesWalker ifElseBare_source
                  (mkNode 0 (OtherKind "IfStatement") 0 0 21 [ifElseBare_else]))).
  exists ifElseBare_else, ifElseBare_else, [].
  repeat split.
Defined.

